(** * map_tx_coordinates: transcript-to-genome coordinate translation

    A shallow embedding of [src/map_tx_coordinates.py]: the class
    [CIGARString] with its parser [__parse_cigar_str], the walk
    [map_coordinate] and the helper [get_tx_length].

    Python values are modelled as follows.
    - [int] is [Z] (unbounded).
    - [str] is [string]; the model covers strings of ASCII characters,
      for which [str.isalpha] is "is an ASCII letter".
    - a CIGAR region, an integer-char tuple, is a pair [Z * ascii].
    - an exception is a value of [exception]; a call that may raise
      returns a [result].
    - [warnings.warn] appends its message to a log carried by the walk.
    - the [while] loop of [map_coordinate] is run with fuel: one unit per
      iteration of the loop body. *)

From Stdlib Require Import ZArith List String Ascii Bool Lia DecimalString DecimalPos.
Import ListNotations.

Open Scope string_scope.
Open Scope Z_scope.

(** ** Python built-ins used by the program *)

Module Py.

Inductive exception : Type :=
| ValueError (message : string)
    (** [raise ValueError(message)] *)
| ValueError_invalid_literal (literal : string)
    (** the [ValueError] that [int(literal)] raises *)
| IndexError.
    (** indexing or popping an empty list *)

Inductive result (A : Type) : Type :=
| Ok (a : A)
| Raise (e : exception).
Arguments Ok {A} a.
Arguments Raise {A} e.

Definition bind {A B : Type} (r : result A) (k : A -> result B) : result B :=
  match r with
  | Ok a => k a
  | Raise e => Raise e
  end.

Definition code (c : ascii) : N := N_of_ascii c.

(** [c.isalpha()] on an ASCII character. *)
Definition isalpha (c : ascii) : bool :=
  (((65 <=? code c) && (code c <=? 90)) || ((97 <=? code c) && (code c <=? 122)))%N.

(** The characters [int()] strips around a literal: tab, line feed,
    vertical tab, form feed, carriage return, the four separators
    0x1c-0x1f and space. *)
Definition isspace (c : ascii) : bool :=
  (((9 <=? code c) && (code c <=? 13)) || ((28 <=? code c) && (code c <=? 32)))%N.

Definition isdigit (c : ascii) : bool :=
  ((48 <=? code c) && (code c <=? 57))%N.

Definition digit_value (c : ascii) : Z := Z.of_N (code c) - 48.

Fixpoint lstrip (s : list ascii) : list ascii :=
  match s with
  | c :: s' => if isspace c then lstrip s' else s
  | [] => []
  end.

Definition strip (s : list ascii) : list ascii :=
  rev (lstrip (rev (lstrip s))).

(** Decimal digits with single underscores allowed between two digits.
    [after_digit] tells whether the previous character was a digit. *)
Fixpoint digits (acc : Z) (after_digit : bool) (s : list ascii) : option Z :=
  match s with
  | [] => if after_digit then Some acc else None
  | c :: s' =>
      if isdigit c then digits (10 * acc + digit_value c) true s'
      else if Ascii.eqb c "_" then
             if after_digit then digits acc false s' else None
           else None
  end.

Definition signed_digits (s : list ascii) : option Z :=
  match s with
  | c :: s' =>
      if Ascii.eqb c "-" then option_map Z.opp (digits 0 false s')
      else if Ascii.eqb c "+" then digits 0 false s'
      else digits 0 false s
  | [] => None
  end.

(** [int(s)], base 10. *)
Definition int (s : string) : result Z :=
  match signed_digits (strip (list_ascii_of_string s)) with
  | Some z => Ok z
  | None => Raise (ValueError_invalid_literal s)
  end.

(** [str(z)] for an [int]. *)
Definition str (z : Z) : string := NilZero.string_of_int (Z.to_int z).

(** [re.split('[...]', s)] for a pattern that is one character class:
    the pieces of [s] between the characters of the class, empty pieces
    included. *)
Fixpoint re_split (in_class : ascii -> bool) (s : string) : list string :=
  match s with
  | EmptyString => [EmptyString]
  | String c s' =>
      if in_class c then EmptyString :: re_split in_class s'
      else match re_split in_class s' with
           | piece :: pieces => String c piece :: pieces
           | [] => [String c EmptyString]
           end
  end.

(** [l.pop()]: the list without its last element, [IndexError] on []. *)
Definition pop {A : Type} (l : list A) : result (list A) :=
  match l with
  | [] => Raise IndexError
  | _ :: _ => Ok (removelast l)
  end.

(** [[f(i) for i in l]], stopping at the first exception. *)
Fixpoint comprehension {A B : Type} (f : A -> result B) (l : list A) : result (list B) :=
  match l with
  | [] => Ok []
  | a :: l' => bind (f a) (fun b => bind (comprehension f l') (fun bs => Ok (b :: bs)))
  end.

(** [sum(l)] *)
Definition sum (l : list Z) : Z := fold_left Z.add l 0.

End Py.

Import Py.

(** ** class CIGARString *)

(** An integer-char tuple of [self.cigar]. *)
Definition region : Type := (Z * ascii)%type.

Record CIGARString : Type := {
  cigar_str : string;
  cigar : list region
}.

(** The operation symbols, under the names the specification gives them. *)
Definition Match : ascii := "M".
Definition Deletion : ascii := "D".
Definition Insertion : ascii := "I".
Definition SoftClip : ascii := "S".
Definition HardClip : ascii := "H".
Definition Equal : ascii := "=".
Definition Mismatch : ascii := "X".

(** The characters of the class [[MDISH=X]]. *)
Definition operation_symbol (c : ascii) : bool :=
  existsb (Ascii.eqb c) ["M"; "D"; "I"; "S"; "H"; "="; "X"]%char.

(** [chars_list] of [__parse_cigar_str] *)
Definition chars_list (s : string) : list ascii :=
  filter isalpha (list_ascii_of_string s).

(** [int_list] of [__parse_cigar_str], before [pop] *)
Definition int_list (s : string) : list string :=
  re_split operation_symbol s.

Definition parse_cigar_str (s : string) : result (list region) :=
  bind (pop (int_list s)) (fun int_list' =>
  bind (comprehension int int_list') (fun ints =>
  Ok (combine ints (chars_list s)))).

(** [CIGARString(cigar_str)] *)
Definition CIGARString_init (s : string) : result CIGARString :=
  bind (parse_cigar_str s) (fun c => Ok {| cigar_str := s; cigar := c |}).

Definition counts_for_tx_length (r : region) : bool :=
  existsb (Ascii.eqb (snd r)) ["M"; "I"]%char.

Definition get_tx_length (self : CIGARString) : Z :=
  let region_lengths := map fst (filter counts_for_tx_length (cigar self)) in
  sum region_lengths.

(** *** map_coordinate *)

(** The local variables of [map_coordinate], with the log of the messages
    passed to [warnings.warn], oldest first. *)
Record state : Type := {
  curr_pos : Z;
  curr_region_length : Z;
  curr_region_type : ascii;
  region_ix : nat;
  within_region_ix : Z;
  tx_ix : Z;
  reached_end_of_region : bool;
  warned : list string
}.

Definition out_of_bounds_message (self : CIGARString) (tx_pos : Z) : string :=
  "Transcript position out of bounds (tx_pos = " ++ str tx_pos
  ++ ", transcript length = " ++ str (get_tx_length self)
  ++ ", CIGAR str = " ++ cigar_str self ++ ")".

Definition insertion_warning (self : CIGARString) (tx_pos : Z) : string :=
  "Transcript coordinate maps to insertion region and does not have a corresponding "
  ++ "genomic coordinate. Returning genomic coordinate to the right of insertion. "
  ++ "(tx_pos = " ++ str tx_pos ++ ", CIGAR str = " ++ cigar_str self ++ ")".

(** The [if]/[elif] chain on [curr_region_type]. *)
Definition advance (self : CIGARString) (tx_pos : Z) (st : state) : state :=
  if Ascii.eqb (curr_region_type st) "M" then
    {| curr_pos := curr_pos st + 1;
       curr_region_length := curr_region_length st;
       curr_region_type := curr_region_type st;
       region_ix := region_ix st;
       within_region_ix := within_region_ix st + 1;
       tx_ix := tx_ix st;
       reached_end_of_region :=
         if within_region_ix st + 1 =? curr_region_length st - 1 then true
         else reached_end_of_region st;
       warned := warned st |}
  else if Ascii.eqb (curr_region_type st) "D" then
    {| curr_pos := curr_pos st + (curr_region_length st + 1);
       curr_region_length := curr_region_length st;
       curr_region_type := curr_region_type st;
       region_ix := region_ix st;
       within_region_ix := within_region_ix st;
       tx_ix := tx_ix st;
       reached_end_of_region := true;
       warned := warned st |}
  else if Ascii.eqb (curr_region_type st) "I" then
    {| curr_pos := curr_pos st + 1;
       curr_region_length := curr_region_length st;
       curr_region_type := curr_region_type st;
       region_ix := region_ix st;
       within_region_ix := within_region_ix st;
       tx_ix := tx_ix st + curr_region_length st;
       reached_end_of_region := true;
       warned :=
         if tx_pos <=? tx_ix st + curr_region_length st
         then warned st ++ [insertion_warning self tx_pos]
         else warned st |}
  else st.

(** [if reached_end_of_region: ...] *)
Definition next_region (self : CIGARString) (st : state) : state :=
  if reached_end_of_region st then
    match nth_error (cigar self) (S (region_ix st)) with
    | Some (len, type) =>
        (* region_ix < len(self.cigar) *)
        {| curr_pos := curr_pos st;
           curr_region_length := len;
           curr_region_type := type;
           region_ix := S (region_ix st);
           within_region_ix := 0;
           tx_ix := tx_ix st;
           reached_end_of_region := false;
           warned := warned st |}
    | None =>
        {| curr_pos := curr_pos st;
           curr_region_length := curr_region_length st;
           curr_region_type := curr_region_type st;
           region_ix := S (region_ix st);
           within_region_ix := within_region_ix st;
           tx_ix := tx_ix st;
           reached_end_of_region := reached_end_of_region st;
           warned := warned st |}
    end
  else st.

(** [tx_ix += 1] *)
Definition tick (st : state) : state :=
  {| curr_pos := curr_pos st;
     curr_region_length := curr_region_length st;
     curr_region_type := curr_region_type st;
     region_ix := region_ix st;
     within_region_ix := within_region_ix st;
     tx_ix := tx_ix st + 1;
     reached_end_of_region := reached_end_of_region st;
     warned := warned st |}.

(** One iteration of the body of [while tx_ix < tx_pos]. *)
Definition loop_body (self : CIGARString) (tx_pos : Z) (st : state) : state :=
  tick (next_region self (advance self tx_pos st)).

(** [while tx_ix < tx_pos: ...]; [None] when the fuel runs out before the
    loop condition turns false. *)
Fixpoint while_loop (fuel : nat) (self : CIGARString) (tx_pos : Z) (st : state)
  : option state :=
  if tx_ix st <? tx_pos then
    match fuel with
    | O => None
    | S fuel' => while_loop fuel' self tx_pos (loop_body self tx_pos st)
    end
  else Some st.

(** The state on entry to the loop, given region 0. *)
Definition initial_state (mapping_start_pos : Z) (region0 : region) : state :=
  {| curr_pos := mapping_start_pos;
     curr_region_length := fst region0;
     curr_region_type := snd region0;
     region_ix := 0;
     within_region_ix := 0;
     tx_ix := 0;
     reached_end_of_region := false;
     warned := [] |}.

(** What a call of [map_coordinate] does within a given number of loop
    iterations. *)
Inductive outcome : Type :=
| Returns (chrom_pos : Z) (warnings : list string)
| Raises (e : exception)
| OutOfFuel.

Definition map_coordinate (fuel : nat) (self : CIGARString)
    (tx_pos mapping_start_pos : Z) : outcome :=
  if (tx_pos <? 0) || (tx_pos >=? get_tx_length self) then
    Raises (ValueError (out_of_bounds_message self tx_pos))
  else
    match nth_error (cigar self) 0 with
    | None => Raises IndexError
    | Some region0 =>
        match while_loop fuel self tx_pos (initial_state mapping_start_pos region0) with
        | Some st => Returns (curr_pos st) (warned st)
        | None => OutOfFuel
        end
    end.

(** [CIGARString(cigar_str).map_coordinate(tx_pos, mapping_start_pos)], the
    two calls [get_coordinate_mapping] makes for a query. *)
Definition map_cigar_str (fuel : nat) (s : string) (tx_pos mapping_start_pos : Z)
  : outcome :=
  match CIGARString_init s with
  | Ok self => map_coordinate fuel self tx_pos mapping_start_pos
  | Raise e => Raises e
  end.

(** ** The spec's reading of the derived quantities *)

(** TranscriptLength as the spec words it: every region contributes its
    length when its operation is Match or Insertion, and 0 otherwise. *)
Definition contribution (r : region) : Z :=
  if Ascii.eqb (snd r) "M" || Ascii.eqb (snd r) "I" then fst r else 0.

Definition TranscriptLength (regions : list region) : Z :=
  fold_right (fun r total => contribution r + total) 0 regions.

(** The state after [n] executions of the loop body. *)
Definition state_after (n : nat) (self : CIGARString) (tx_pos mapping_start_pos : Z)
    (region0 : region) : state :=
  Nat.iter n (loop_body self tx_pos) (initial_state mapping_start_pos region0).

(** ** Predicates on regions and states *)

(** The region the walk is in. *)
Definition current_region (st : state) : region :=
  (curr_region_length st, curr_region_type st).

(** A region whose transcript advance cannot be negative. *)
Definition insertion_length_nonnegative (r : region) : Prop :=
  snd r = "I"%char -> 0 <= fst r.

(** A region that is not an insertion, and does not move the genomic
    position backwards when it is a deletion. *)
Definition no_insertion (r : region) : Prop := snd r <> "I"%char.
Definition deletion_length_nonnegative (r : region) : Prop :=
  snd r = "D"%char -> 0 <= fst r.

(** A region over which the genomic position cannot decrease. *)
Definition monotone_region (r : region) : Prop :=
  no_insertion r /\ deletion_length_nonnegative r.

(** A state in a last region that is an insertion of length -1, before
    the queried position. *)
Definition stuck (self : CIGARString) (tx_pos : Z) (st : state) : Prop :=
  current_region st = (-1, Insertion)
  /\ nth_error (cigar self) (S (region_ix st)) = None
  /\ tx_ix st < tx_pos.

(** ** Notions used to state further properties of the walk *)

(** The call returns [chrom_pos] after the warnings [warnings]: it does so
    within some number of loop iterations. *)
Definition map_coordinate_returns (self : CIGARString) (tx_pos mapping_start_pos : Z)
    (chrom_pos : Z) (warnings : list string) : Prop :=
  exists fuel,
    map_coordinate fuel self tx_pos mapping_start_pos = Returns chrom_pos warnings.

(** The loop entered in state [st] exits in state [st']. *)
Definition walks (self : CIGARString) (tx_pos : Z) (st st' : state) : Prop :=
  exists fuel, while_loop fuel self tx_pos st = Some st'.

(** The state after an iteration that stays inside a Match region. *)
Definition match_step (st : state) : state :=
  {| curr_pos := curr_pos st + 1;
     curr_region_length := curr_region_length st;
     curr_region_type := curr_region_type st;
     region_ix := region_ix st;
     within_region_ix := within_region_ix st + 1;
     tx_ix := tx_ix st + 1;
     reached_end_of_region := false;
     warned := warned st |}.

(** The state in which the walk enters the region [r] that follows the one
    of [st], the genomic position having moved by [genome] and the
    transcript index by [tx]. *)
Definition enter_region (st : state) (r : region) (genome tx : Z) : state :=
  {| curr_pos := curr_pos st + genome;
     curr_region_length := fst r;
     curr_region_type := snd r;
     region_ix := S (region_ix st);
     within_region_ix := 0;
     tx_ix := tx_ix st + tx;
     reached_end_of_region := false;
     warned := warned st |}.

(** [st] with its genomic position moved by [d]. *)
Definition shift (d : Z) (st : state) : state :=
  {| curr_pos := curr_pos st + d;
     curr_region_length := curr_region_length st;
     curr_region_type := curr_region_type st;
     region_ix := region_ix st;
     within_region_ix := within_region_ix st;
     tx_ix := tx_ix st;
     reached_end_of_region := reached_end_of_region st;
     warned := warned st |}.

Definition shift_outcome (d : Z) (o : outcome) : outcome :=
  match o with
  | Returns chrom_pos warnings => Returns (chrom_pos + d) warnings
  | Raises e => Raises e
  | OutOfFuel => OutOfFuel
  end.

(** [st] without its log of warnings. *)
Definition forget_warnings (st : state) : state :=
  {| curr_pos := curr_pos st;
     curr_region_length := curr_region_length st;
     curr_region_type := curr_region_type st;
     region_ix := region_ix st;
     within_region_ix := within_region_ix st;
     tx_ix := tx_ix st;
     reached_end_of_region := reached_end_of_region st;
     warned := [] |}.

(** A region over which neither the transcript index nor the genomic
    position can move backwards. *)
Definition nonnegative_region (r : region) : Prop :=
  insertion_length_nonnegative r /\ deletion_length_nonnegative r.

(** A character that is neither stripped by [int], nor an operation
    symbol, nor a letter. *)
Definition literal_char (c : ascii) : Prop :=
  isspace c = false /\ operation_symbol c = false /\ isalpha c = false.

(** The operation symbols of [[MDISH=X]] that are letters: all but [=]. *)
Definition letter_symbol (c : ascii) : bool :=
  operation_symbol c && isalpha c.

(** The CIGAR string that writes a region sequence: for every region
    [str(length)] followed by its operation symbol. *)
Fixpoint encode (regions : list region) : string :=
  match regions with
  | [] => EmptyString
  | (len, op) :: rest => str len ++ String op (encode rest)
  end.

(** ** Basic facts about the walk *)

Lemma while_loop_exit fuel self tx_pos st :
  tx_pos <= tx_ix st -> while_loop fuel self tx_pos st = Some st.
Proof.
  intros H. destruct fuel; simpl;
    destruct (tx_ix st <? tx_pos) eqn:E; try reflexivity;
    apply Z.ltb_lt in E; lia.
Qed.

Lemma while_loop_step fuel self tx_pos st :
  tx_ix st < tx_pos ->
  while_loop (S fuel) self tx_pos st
  = while_loop fuel self tx_pos (loop_body self tx_pos st).
Proof.
  intros H. simpl. apply Z.ltb_lt in H. now rewrite H.
Qed.

Lemma while_loop_more_fuel fuel self tx_pos :
  forall st st' extra,
    while_loop fuel self tx_pos st = Some st' ->
    while_loop (fuel + extra) self tx_pos st = Some st'.
Proof.
  induction fuel as [|fuel IH]; intros st st' extra H.
  - simpl in H. destruct (tx_ix st <? tx_pos) eqn:E; [discriminate|].
    injection H as <-. apply while_loop_exit. apply Z.ltb_ge in E. lia.
  - simpl in *. destruct (tx_ix st <? tx_pos); [|assumption].
    now apply IH.
Qed.

Lemma while_loop_deterministic self tx_pos st f1 f2 st1 st2 :
  while_loop f1 self tx_pos st = Some st1 ->
  while_loop f2 self tx_pos st = Some st2 ->
  st1 = st2.
Proof.
  intros H1 H2.
  apply while_loop_more_fuel with (extra := f2) in H1.
  apply while_loop_more_fuel with (extra := f1) in H2.
  rewrite Nat.add_comm in H2. congruence.
Qed.

Lemma map_coordinate_more_fuel fuel extra self tx_pos start v ws :
  map_coordinate fuel self tx_pos start = Returns v ws ->
  map_coordinate (fuel + extra) self tx_pos start = Returns v ws.
Proof.
  unfold map_coordinate.
  destruct ((tx_pos <? 0) || (tx_pos >=? get_tx_length self)); [discriminate|].
  destruct (nth_error (cigar self) 0) as [region0|]; [|discriminate].
  destruct (while_loop fuel _ _ _) as [st|] eqn:E; [|discriminate].
  intros H. now rewrite (while_loop_more_fuel _ _ _ _ _ extra E).
Qed.

Lemma map_coordinate_deterministic f1 f2 self tx_pos start v1 ws1 v2 ws2 :
  map_coordinate f1 self tx_pos start = Returns v1 ws1 ->
  map_coordinate f2 self tx_pos start = Returns v2 ws2 ->
  v1 = v2 /\ ws1 = ws2.
Proof.
  intros H1 H2.
  apply map_coordinate_more_fuel with (extra := f2) in H1.
  apply map_coordinate_more_fuel with (extra := f1) in H2.
  rewrite Nat.add_comm in H2. rewrite H1 in H2. now injection H2.
Qed.

Lemma map_cigar_str_more_fuel fuel extra s tx_pos start v ws :
  map_cigar_str fuel s tx_pos start = Returns v ws ->
  map_cigar_str (fuel + extra) s tx_pos start = Returns v ws.
Proof.
  unfold map_cigar_str. destruct (CIGARString_init s); [|discriminate].
  apply map_coordinate_more_fuel.
Qed.

Lemma map_cigar_str_deterministic f1 f2 s tx_pos start v1 ws1 v2 ws2 :
  map_cigar_str f1 s tx_pos start = Returns v1 ws1 ->
  map_cigar_str f2 s tx_pos start = Returns v2 ws2 ->
  v1 = v2 /\ ws1 = ws2.
Proof.
  unfold map_cigar_str. destruct (CIGARString_init s); [|discriminate].
  apply map_coordinate_deterministic.
Qed.

(** How one iteration moves [tx_ix]: the final increment, and the length
    of the region when it is an insertion. *)
Ltac split_cases :=
  repeat match goal with
         | |- context [if ?b then _ else _] => destruct b eqn:?; simpl
         | |- context [match ?o with Some _ => _ | None => _ end] =>
             destruct o as [[? ?]|] eqn:?; simpl
         end.

Lemma tx_ix_loop_body self tx_pos st :
  tx_ix (loop_body self tx_pos st)
  = tx_ix st + 1
    + (if Ascii.eqb (curr_region_type st) "I" then curr_region_length st else 0).
Proof.
  unfold loop_body, tick, next_region, advance.
  destruct (Ascii.eqb (curr_region_type st) "M") eqn:EM.
  { apply Ascii.eqb_eq in EM. rewrite EM. cbn [Ascii.eqb Bool.eqb]. cbv iota.
    cbn [reached_end_of_region tx_ix]. split_cases; lia. }
  destruct (Ascii.eqb (curr_region_type st) "D") eqn:ED.
  { apply Ascii.eqb_eq in ED. rewrite ED. cbn [Ascii.eqb Bool.eqb]. cbv iota.
    cbn [reached_end_of_region tx_ix]. split_cases; lia. }
  destruct (Ascii.eqb (curr_region_type st) "I") eqn:EI;
    cbn [reached_end_of_region tx_ix]; split_cases; lia.
Qed.

(** An iteration either stays in its region or moves to a region of
    [self.cigar]. *)
Lemma current_region_loop_body self tx_pos st :
  current_region (loop_body self tx_pos st) = current_region st
  \/ In (current_region (loop_body self tx_pos st)) (cigar self).
Proof.
  unfold loop_body, tick, next_region, current_region.
  cbn [curr_region_length curr_region_type].
  destruct (reached_end_of_region (advance self tx_pos st)).
  - destruct (nth_error (cigar self) (S (region_ix (advance self tx_pos st))))
      as [[len type]|] eqn:E.
    + right. cbn [curr_region_length curr_region_type].
      eapply nth_error_In; eassumption.
    + left. cbn [curr_region_length curr_region_type].
      unfold advance; split_cases; reflexivity.
  - left. unfold advance; split_cases; reflexivity.
Qed.

Section RegionInvariant.

Variable self : CIGARString.
Variable P : region -> Prop.
Hypothesis all_regions : Forall P (cigar self).

Lemma invariant_initial_state start region0 :
  nth_error (cigar self) 0 = Some region0 ->
  P (current_region (initial_state start region0)).
Proof.
  intros H. apply nth_error_In in H.
  unfold current_region, initial_state; cbn [curr_region_length curr_region_type].
  rewrite <- surjective_pairing.
  now apply (proj1 (Forall_forall P (cigar self)) all_regions).
Qed.

Lemma invariant_loop_body tx_pos st :
  P (current_region st) -> P (current_region (loop_body self tx_pos st)).
Proof.
  intros H. destruct (current_region_loop_body self tx_pos st) as [E|E].
  - now rewrite E.
  - now apply (proj1 (Forall_forall P (cigar self)) all_regions).
Qed.

Lemma invariant_state_after n tx_pos start region0 :
  nth_error (cigar self) 0 = Some region0 ->
  P (current_region (state_after n self tx_pos start region0)).
Proof.
  intros H. induction n as [|n IH].
  - now apply invariant_initial_state.
  - unfold state_after in *. simpl. now apply invariant_loop_body.
Qed.

End RegionInvariant.

Lemma tx_ix_increases self tx_pos st :
  insertion_length_nonnegative (current_region st) ->
  tx_ix st < tx_ix (loop_body self tx_pos st).
Proof.
  unfold insertion_length_nonnegative, current_region. cbn [fst snd].
  intros H. rewrite tx_ix_loop_body.
  destruct (Ascii.eqb (curr_region_type st) "I") eqn:E; [|lia].
  apply Ascii.eqb_eq in E. specialize (H E). lia.
Qed.

(** With non-negative insertion lengths the loop exits within
    [tx_pos - tx_ix] iterations. *)
Lemma while_loop_terminates self tx_pos :
  Forall insertion_length_nonnegative (cigar self) ->
  forall fuel st,
    insertion_length_nonnegative (current_region st) ->
    (Z.to_nat (tx_pos - tx_ix st) <= fuel)%nat ->
    exists st', while_loop fuel self tx_pos st = Some st'.
Proof.
  intros Hall. induction fuel as [|fuel IH]; intros st Hst Hfuel.
  - exists st. apply while_loop_exit. lia.
  - destruct (Z.lt_ge_cases (tx_ix st) tx_pos) as [Hlt|Hge].
    + rewrite while_loop_step by assumption.
      apply IH.
      * now apply invariant_loop_body.
      * pose proof (tx_ix_increases self tx_pos st Hst). lia.
    + exists st. now apply while_loop_exit.
Qed.

(** ** Facts about the parser *)

Lemma re_split_not_nil in_class s : re_split in_class s <> [].
Proof.
  destruct s as [|c s]; simpl; [discriminate|].
  destruct (in_class c); [discriminate|].
  destruct (re_split in_class s); discriminate.
Qed.

Lemma pop_int_list s : pop (int_list s) = Ok (removelast (int_list s)).
Proof.
  unfold int_list, pop.
  destruct (re_split operation_symbol s) eqn:E; [|reflexivity].
  now apply re_split_not_nil in E.
Qed.

Lemma parse_cigar_str_unfold s :
  parse_cigar_str s
  = bind (comprehension int (removelast (int_list s)))
         (fun ints => Ok (combine ints (chars_list s))).
Proof. unfold parse_cigar_str. now rewrite pop_int_list. Qed.

Lemma comprehension_length {A B} (f : A -> result B) l :
  forall bs, comprehension f l = Ok bs -> List.length bs = List.length l.
Proof.
  induction l as [|a l IH]; simpl; intros bs H.
  - now injection H as <-.
  - destruct (f a); [|discriminate]. simpl in H.
    destruct (comprehension f l); [|discriminate]. simpl in H.
    injection H as <-. simpl. f_equal. now apply IH.
Qed.

Lemma comprehension_nth_error {A B} (f : A -> result B) l :
  forall bs i b,
    comprehension f l = Ok bs -> nth_error bs i = Some b ->
    exists a, nth_error l i = Some a /\ f a = Ok b.
Proof.
  induction l as [|a l IH]; simpl; intros bs i b H Hi.
  - injection H as <-. destruct i; discriminate.
  - destruct (f a) as [b0|] eqn:Ea; [|discriminate]. simpl in H.
    destruct (comprehension f l) as [bs0|]; [|discriminate]. simpl in H.
    injection H as <-. destruct i as [|i]; simpl in *.
    + injection Hi as <-. now exists a.
    + now apply (IH bs0).
Qed.

Lemma comprehension_raise {A B} (f : A -> result B) l :
  forall e, comprehension f l = Raise e -> exists a, In a l /\ f a = Raise e.
Proof.
  induction l as [|a l IH]; simpl; intros e H; [discriminate|].
  destruct (f a) as [b|e0] eqn:Ea; simpl in H.
  - destruct (comprehension f l) as [bs|e1]; simpl in H; [discriminate|].
    injection H as ->. destruct (IH e eq_refl) as [a' [Hin Ha']].
    exists a'. auto.
  - injection H as ->. exists a. auto.
Qed.

Lemma nth_error_combine {A B} (l1 : list A) :
  forall (l2 : list B) i a b,
    nth_error (combine l1 l2) i = Some (a, b) ->
    nth_error l1 i = Some a /\ nth_error l2 i = Some b.
Proof.
  induction l1 as [|x l1 IH]; intros [|y l2] [|i] a b H; simpl in *;
    try discriminate.
  - injection H as <- <-. auto.
  - now apply IH.
Qed.

Lemma nth_error_removelast {A} (l : list A) :
  forall i a, nth_error (removelast l) i = Some a -> nth_error l i = Some a.
Proof.
  induction l as [|x l IH]; intros i a H; simpl in *.
  - destruct i; discriminate.
  - destruct l as [|y l]; [destruct i; discriminate|].
    destruct i as [|i]; simpl in *; [assumption|]. now apply IH.
Qed.

Lemma int_raise lit e : int lit = Raise e -> e = ValueError_invalid_literal lit.
Proof.
  unfold int. destruct (signed_digits _); [discriminate|]. now intros [= <-].
Qed.

Lemma parse_cigar_str_positional s regions i len op :
  parse_cigar_str s = Ok regions ->
  nth_error regions i = Some (len, op) ->
  (exists literal, nth_error (int_list s) i = Some literal /\ int literal = Ok len)
  /\ nth_error (chars_list s) i = Some op.
Proof.
  rewrite parse_cigar_str_unfold.
  destruct (comprehension int (removelast (int_list s))) as [ints|] eqn:E;
    simpl; [|discriminate].
  intros [= <-] Hi. apply nth_error_combine in Hi as [Hint Hop].
  split; [|assumption].
  destruct (comprehension_nth_error _ _ _ _ _ E Hint) as [literal [Hl Hv]].
  exists literal. split; [|assumption]. now apply nth_error_removelast.
Qed.

Lemma parse_cigar_str_length s regions :
  parse_cigar_str s = Ok regions ->
  List.length regions
  = Nat.min (List.length (int_list s) - 1) (List.length (chars_list s)).
Proof.
  rewrite parse_cigar_str_unfold.
  destruct (comprehension int (removelast (int_list s))) as [ints|] eqn:E;
    simpl; [|discriminate].
  intros [= <-]. unfold region. rewrite length_combine.
  apply comprehension_length in E. rewrite E.
  assert (H : List.length (removelast (int_list s)) = (List.length (int_list s) - 1)%nat).
  { pose proof (re_split_not_nil operation_symbol s) as Hne.
    unfold int_list.
    destruct (exists_last Hne) as [front [final ->]].
    rewrite removelast_last, length_app. simpl. lia. }
  now rewrite H.
Qed.

Lemma parse_cigar_str_raise s e :
  parse_cigar_str s = Raise e ->
  exists literal,
    In literal (removelast (int_list s))
    /\ int literal = Raise e /\ e = ValueError_invalid_literal literal.
Proof.
  rewrite parse_cigar_str_unfold.
  destruct (comprehension int (removelast (int_list s))) as [ints|e0] eqn:E;
    simpl; [discriminate|].
  intros [= ->]. apply comprehension_raise in E as [literal [Hin Hl]].
  exists literal. repeat split; try assumption. now apply int_raise in Hl.
Qed.

(** ** The transcript length *)

Lemma fold_left_add_shift l : forall a, fold_left Z.add l a = a + fold_left Z.add l 0.
Proof.
  induction l as [|x l IH]; intros a; simpl; [lia|].
  rewrite (IH (a + x)), (IH x). lia.
Qed.

Lemma sum_cons x l : sum (x :: l) = x + sum l.
Proof. unfold sum. simpl. apply fold_left_add_shift. Qed.

Lemma counts_for_tx_length_spec r :
  counts_for_tx_length r = Ascii.eqb (snd r) "M" || Ascii.eqb (snd r) "I".
Proof. unfold counts_for_tx_length. simpl. now rewrite orb_false_r. Qed.

Lemma get_tx_length_cons s r regions :
  get_tx_length {| cigar_str := s; cigar := r :: regions |}
  = contribution r + get_tx_length {| cigar_str := s; cigar := regions |}.
Proof.
  unfold get_tx_length, contribution. cbn [cigar filter].
  rewrite counts_for_tx_length_spec.
  destruct (Ascii.eqb (snd r) "M" || Ascii.eqb (snd r) "I"); simpl map.
  - apply sum_cons.
  - lia.
Qed.

Lemma get_tx_length_TranscriptLength self :
  get_tx_length self = TranscriptLength (cigar self).
Proof.
  destruct self as [s regions]. cbn [cigar].
  induction regions as [|r regions IH].
  - reflexivity.
  - rewrite get_tx_length_cons, IH. reflexivity.
Qed.

(** ** The bounds check *)

Lemma bounds_check_passes self tx_pos :
  0 <= tx_pos < get_tx_length self ->
  (tx_pos <? 0) || (tx_pos >=? get_tx_length self) = false.
Proof.
  intros H. apply orb_false_iff. split.
  - apply Z.ltb_ge. lia.
  - rewrite Z.geb_leb. apply Z.leb_gt. lia.
Qed.

Lemma bounds_check_fails self tx_pos :
  tx_pos < 0 \/ tx_pos >= get_tx_length self ->
  (tx_pos <? 0) || (tx_pos >=? get_tx_length self) = true.
Proof.
  intros H. apply orb_true_iff. destruct H as [H|H].
  - left. now apply Z.ltb_lt.
  - right. rewrite Z.geb_leb. apply Z.leb_le. lia.
Qed.

Lemma in_bounds_region_0 self tx_pos :
  0 <= tx_pos < get_tx_length self ->
  exists region0, nth_error (cigar self) 0 = Some region0.
Proof.
  intros H. destruct (cigar self) as [|r regions] eqn:E.
  - unfold get_tx_length in H. rewrite E in H. simpl in H. unfold sum in H. simpl in H. lia.
  - now exists r.
Qed.

Lemma map_coordinate_in_bounds fuel self tx_pos start region0 :
  0 <= tx_pos < get_tx_length self ->
  nth_error (cigar self) 0 = Some region0 ->
  map_coordinate fuel self tx_pos start
  = match while_loop fuel self tx_pos (initial_state start region0) with
    | Some st => Returns (curr_pos st) (warned st)
    | None => OutOfFuel
    end.
Proof.
  intros H H0. unfold map_coordinate.
  now rewrite bounds_check_passes, H0.
Qed.

(** ** The claims *)

(** C8. Parsing "8M7D6M2I" yields exactly
    [(8, Match); (7, Deletion); (6, Match); (2, Insertion)], in that order:
    the letters scan gives M, D, M, I, the split gives the literals 8, 7,
    6, 2 and a final empty piece that is popped, and the i-th region of any
    successful parse pairs the i-th integer literal with the i-th letter. *)
Theorem parse_cigar_str_8M7D6M2I :
  chars_list "8M7D6M2I" = [Match; Deletion; Match; Insertion]
  /\ int_list "8M7D6M2I" = ["8"; "7"; "6"; "2"; ""]
  /\ parse_cigar_str "8M7D6M2I"
     = Ok [(8, Match); (7, Deletion); (6, Match); (2, Insertion)]
  /\ (forall s regions i len op,
        parse_cigar_str s = Ok regions ->
        nth_error regions i = Some (len, op) ->
        (exists literal,
            nth_error (int_list s) i = Some literal /\ int literal = Ok len)
        /\ nth_error (chars_list s) i = Some op).
Proof.
  repeat split; try reflexivity;
    eapply parse_cigar_str_positional; eassumption.
Qed.

(** C3, as the claim states it, fails: "8M7" and the empty string both
    parse, and so does "8M7=", whose two scans have different lengths. *)
Lemma parse_cigar_str_malformed_accepted :
  parse_cigar_str "8M7" = Ok [(8, Match)]
  /\ parse_cigar_str "" = Ok []
  /\ List.length (removelast (int_list "8M7=")) <> List.length (chars_list "8M7=")
  /\ parse_cigar_str "8M7=" = Ok [(8, Match)].
Proof. repeat split; try reflexivity. vm_compute. discriminate. Qed.

(** C3, amended. Parsing "8M7" yields [(8, Match)] (what follows the last
    operation symbol is dropped) and parsing the empty string yields the
    empty region sequence. When the two scans have different lengths the
    parser does not fail: it pairs them positionally up to the shorter
    one. The parser fails only when one of the pieces between operation
    symbols is not an integer literal, with the [ValueError] of [int]. *)
Theorem parse_cigar_str_unequal_scans :
  parse_cigar_str "8M7" = Ok [(8, Match)]
  /\ parse_cigar_str "" = Ok []
  /\ (forall s regions,
        parse_cigar_str s = Ok regions ->
        List.length regions
        = Nat.min (List.length (int_list s) - 1) (List.length (chars_list s)))
  /\ (forall s e,
        parse_cigar_str s = Raise e ->
        exists literal,
          In literal (removelast (int_list s))
          /\ int literal = Raise e /\ e = ValueError_invalid_literal literal)
  /\ parse_cigar_str "8MM" = Raise (ValueError_invalid_literal "").
Proof.
  repeat split; try reflexivity.
  - apply parse_cigar_str_length.
  - apply parse_cigar_str_raise.
Qed.

(** C6. [get_tx_length] is the sum of the lengths of the Match and
    Insertion regions: every region contributes its length when its
    operation is Match or Insertion and 0 otherwise, a Deletion in
    particular; for "8M7D6M2I2M11D7M" it is 25. *)
Theorem get_tx_length_sum :
  (forall self, get_tx_length self = TranscriptLength (cigar self))
  /\ (forall s len regions,
        get_tx_length {| cigar_str := s; cigar := (len, Deletion) :: regions |}
        = get_tx_length {| cigar_str := s; cigar := regions |})
  /\ (exists self,
        CIGARString_init "8M7D6M2I2M11D7M" = Ok self /\ get_tx_length self = 25).
Proof.
  split; [apply get_tx_length_TranscriptLength|]. split.
  - intros s len regions. now rewrite get_tx_length_cons.
  - eexists. split; reflexivity.
Qed.

(** C4. For "8M7D6M2I2M11D7M" with mapping start position 3, transcript
    position 4 maps to genomic coordinate 7: the loop runs four times and
    the call returns 7 without a warning. *)
Theorem map_coordinate_worked_example :
  forall extra,
    map_cigar_str (4 + extra) "8M7D6M2I2M11D7M" 4 3 = Returns 7 [].
Proof. intros extra. now apply map_cigar_str_more_fuel. Qed.

(** C1, as the claim states it, fails: for "2M2I2M" with mapping start
    position 10 the call returns 12, not 13, for transcript positions 2, 3
    and 4, and 13, not 14, for position 5. *)
Lemma map_coordinate_2M2I2M_refuted :
  (exists ws, map_cigar_str 3 "2M2I2M" 2 10 = Returns 12 ws)
  /\ (forall fuel ws, map_cigar_str fuel "2M2I2M" 2 10 <> Returns 13 ws)
  /\ (forall fuel ws, map_cigar_str fuel "2M2I2M" 3 10 <> Returns 13 ws)
  /\ (forall fuel ws, map_cigar_str fuel "2M2I2M" 4 10 <> Returns 13 ws)
  /\ (forall fuel ws, map_cigar_str fuel "2M2I2M" 5 10 <> Returns 14 ws).
Proof.
  split; [eexists; reflexivity|].
  repeat split; intros fuel ws H;
    match type of H with
    | map_cigar_str _ ?s ?p ?start = _ =>
        assert (E : exists v ws', map_cigar_str 3 s p start = Returns v ws')
          by (do 2 eexists; reflexivity);
        destruct E as [v [ws' E]];
        destruct (map_cigar_str_deterministic _ _ _ _ _ _ _ _ _ H E) as [Hv _];
        vm_compute in E; injection E as <- _; discriminate
    end.
Qed.

(** C1, amended. For "2M2I2M" with mapping start position 10,
    [map_coordinate] emits the ambiguity warning and returns 12 for
    transcript positions 2 and 3 (inside the 2-base insertion), and returns
    without a warning 10 for position 0, 11 for position 1, 12 for
    position 4 and 13 for position 5. *)
Theorem map_coordinate_2M2I2M :
  exists self,
    CIGARString_init "2M2I2M" = Ok self
    /\ forall extra,
         map_coordinate (3 + extra) self 0 10 = Returns 10 []
         /\ map_coordinate (3 + extra) self 1 10 = Returns 11 []
         /\ map_coordinate (3 + extra) self 2 10
            = Returns 12 [insertion_warning self 2]
         /\ map_coordinate (3 + extra) self 3 10
            = Returns 12 [insertion_warning self 3]
         /\ map_coordinate (3 + extra) self 4 10 = Returns 12 []
         /\ map_coordinate (3 + extra) self 5 10 = Returns 13 [].
Proof.
  eexists. split; [reflexivity|].
  intros extra. repeat split; now apply map_coordinate_more_fuel.
Qed.

(** C2, as the claim states it, fails: for "5D10M" with mapping start
    position 0 the call at transcript position 0 returns 0, never 6. *)
Lemma map_coordinate_5D10M_refuted :
  map_cigar_str 0 "5D10M" 0 0 = Returns 0 []
  /\ (forall fuel ws, map_cigar_str fuel "5D10M" 0 0 <> Returns 6 ws).
Proof.
  split; [reflexivity|]. intros fuel ws H.
  assert (E : map_cigar_str 0 "5D10M" 0 0 = Returns 0 []) by reflexivity.
  destruct (map_cigar_str_deterministic _ _ _ _ _ _ _ _ _ H E). discriminate.
Qed.

(** C2, amended. For "5D10M" with mapping start position 0, transcript
    position 0 maps to 0, the mapping start position: the loop body does
    not run, so the leading deletion is not crossed. The deletion is
    crossed by the first iteration, and transcript position 1 maps to 6. *)
Theorem map_coordinate_5D10M :
  forall extra,
    map_cigar_str extra "5D10M" 0 0 = Returns 0 []
    /\ map_cigar_str (1 + extra) "5D10M" 1 0 = Returns 6 [].
Proof.
  intros extra. split.
  - now apply (map_cigar_str_more_fuel 0 extra).
  - now apply map_cigar_str_more_fuel.
Qed.

(** C5. [map_coordinate] raises its out-of-bounds [ValueError] exactly
    when the transcript position is negative or at least the transcript
    length, in particular for -1 and for the transcript length itself; it
    then returns no value, and the message carries the position, the
    transcript length and the CIGAR string. *)
Theorem map_coordinate_out_of_bounds :
  forall fuel self tx_pos start,
    ((tx_pos < 0 \/ tx_pos >= get_tx_length self)
     <-> exists message,
           map_coordinate fuel self tx_pos start = Raises (ValueError message))
    /\ ((tx_pos < 0 \/ tx_pos >= get_tx_length self) ->
        map_coordinate fuel self tx_pos start
        = Raises (ValueError
            ("Transcript position out of bounds (tx_pos = " ++ str tx_pos
             ++ ", transcript length = " ++ str (get_tx_length self)
             ++ ", CIGAR str = " ++ cigar_str self ++ ")")))
    /\ (exists message,
           map_coordinate fuel self (-1) start = Raises (ValueError message))
    /\ (exists message,
           map_coordinate fuel self (get_tx_length self) start
           = Raises (ValueError message)).
Proof.
  assert (Hraise : forall fuel self tx_pos start,
             tx_pos < 0 \/ tx_pos >= get_tx_length self ->
             map_coordinate fuel self tx_pos start
             = Raises (ValueError (out_of_bounds_message self tx_pos))).
  { intros fuel self tx_pos start H. unfold map_coordinate.
    destruct ((tx_pos <? 0) || (tx_pos >=? get_tx_length self)) eqn:E;
      [reflexivity|].
    apply orb_false_iff in E as [E1 E2].
    apply Z.ltb_ge in E1. rewrite Z.geb_leb in E2. apply Z.leb_gt in E2. lia. }
  intros fuel self tx_pos start. repeat split.
  - intros H. eexists. now apply Hraise.
  - intros [message H]. unfold map_coordinate in H.
    destruct ((tx_pos <? 0) || (tx_pos >=? get_tx_length self)) eqn:E.
    + apply orb_true_iff in E as [E|E].
      * left. now apply Z.ltb_lt.
      * right. rewrite Z.geb_leb in E. apply Z.leb_le in E. lia.
    + destruct (nth_error (cigar self) 0); [|discriminate].
      destruct (while_loop _ _ _ _); discriminate.
  - apply Hraise.
  - eexists. apply Hraise. lia.
  - eexists. apply Hraise. lia.
Qed.

(** C10. When the bounds check passes, the transcript length is at least
    1, the region list is not empty, region 0 can be read, and the call
    does not raise [IndexError]. *)
Theorem map_coordinate_reads_region_0 :
  forall self tx_pos,
    0 <= tx_pos < get_tx_length self ->
    1 <= get_tx_length self
    /\ cigar self <> []
    /\ (exists region0, nth_error (cigar self) 0 = Some region0)
    /\ (forall fuel start,
          map_coordinate fuel self tx_pos start <> Raises IndexError).
Proof.
  intros self tx_pos H.
  destruct (in_bounds_region_0 self tx_pos H) as [region0 H0].
  repeat split; try lia.
  - intros E. rewrite E in H0. discriminate.
  - now exists region0.
  - intros fuel start. rewrite (map_coordinate_in_bounds _ _ _ _ region0) by assumption.
    destruct (while_loop _ _ _ _); discriminate.
Qed.

Lemma map_coordinate_reads_region_0_witness :
  exists self,
    CIGARString_init "8M7D6M2I" = Ok self
    /\ 1 <= get_tx_length self
    /\ cigar self <> []
    /\ (exists region0, nth_error (cigar self) 0 = Some region0)
    /\ (forall fuel start, map_coordinate fuel self 15 start <> Raises IndexError).
Proof.
  eexists. split; [reflexivity|].
  apply (map_coordinate_reads_region_0 _ 15). vm_compute. split; [discriminate|reflexivity].
Defined.

(** ** Walks that do not reach an insertion *)

Lemma curr_pos_loop_body self tx_pos st :
  curr_pos (loop_body self tx_pos st) = curr_pos (advance self tx_pos st).
Proof.
  unfold loop_body, tick, next_region. cbn [curr_pos].
  split_cases; reflexivity.
Qed.

Lemma advance_tx_pos_irrelevant self p p' st :
  no_insertion (current_region st) -> advance self p st = advance self p' st.
Proof.
  unfold no_insertion, current_region, advance. cbn [snd]. intros H.
  destruct (Ascii.eqb (curr_region_type st) "M"); [reflexivity|].
  destruct (Ascii.eqb (curr_region_type st) "D"); [reflexivity|].
  destruct (Ascii.eqb (curr_region_type st) "I") eqn:E; [|reflexivity].
  now apply Ascii.eqb_eq in E.
Qed.

Lemma loop_body_tx_pos_irrelevant self p p' st :
  no_insertion (current_region st) -> loop_body self p st = loop_body self p' st.
Proof.
  intros H. unfold loop_body. now rewrite (advance_tx_pos_irrelevant self p p').
Qed.

Lemma tx_ix_loop_body_no_insertion self tx_pos st :
  no_insertion (current_region st) ->
  tx_ix (loop_body self tx_pos st) = tx_ix st + 1.
Proof.
  unfold no_insertion, current_region. cbn [snd]. intros H.
  rewrite tx_ix_loop_body.
  destruct (Ascii.eqb (curr_region_type st) "I") eqn:E; [|lia].
  now apply Ascii.eqb_eq in E.
Qed.

Lemma curr_pos_nondecreasing self tx_pos st :
  no_insertion (current_region st) ->
  deletion_length_nonnegative (current_region st) ->
  curr_pos st <= curr_pos (loop_body self tx_pos st).
Proof.
  unfold no_insertion, deletion_length_nonnegative, current_region.
  cbn [fst snd]. intros HI HD.
  rewrite curr_pos_loop_body. unfold advance.
  destruct (Ascii.eqb (curr_region_type st) "M"); [cbn [curr_pos]; lia|].
  destruct (Ascii.eqb (curr_region_type st) "D") eqn:ED.
  { apply Ascii.eqb_eq in ED. specialize (HD ED). cbn [curr_pos]. lia. }
  destruct (Ascii.eqb (curr_region_type st) "I") eqn:EI; [|lia].
  now apply Ascii.eqb_eq in EI.
Qed.

(** From a state [n] iterations short of [p], the walk to [p] ends in some
    state [st1], and the walk to [p + 1] ends one iteration later. *)
Lemma walks_to_consecutive_positions self p :
  Forall monotone_region (cigar self) ->
  forall n st,
    monotone_region (current_region st) ->
    tx_ix st + Z.of_nat n = p ->
    exists st1,
      monotone_region (current_region st1)
      /\ (forall extra, while_loop (n + extra) self p st = Some st1)
      /\ (forall extra,
            while_loop (S n + extra) self (p + 1) st
            = Some (loop_body self (p + 1) st1)).
Proof.
  intros Hall. induction n as [|n IH]; intros st Hst Hn.
  - exists st. split; [assumption|]. split; intros extra.
    + apply while_loop_exit. lia.
    + change (S 0 + extra)%nat with (S extra).
      rewrite while_loop_step by lia.
      apply while_loop_exit.
      rewrite tx_ix_loop_body_no_insertion by apply Hst. lia.
  - destruct (IH (loop_body self p st)) as [st1 [H1 [Hp Hp1]]].
    + now apply invariant_loop_body.
    + rewrite tx_ix_loop_body_no_insertion by apply Hst. lia.
    + exists st1. split; [assumption|]. split; intros extra.
      * change (S n + extra)%nat with (S (n + extra)).
        rewrite while_loop_step by lia. apply Hp.
      * change (S (S n) + extra)%nat with (S (S n + extra)).
        rewrite while_loop_step by lia.
        rewrite (loop_body_tx_pos_irrelevant self (p + 1) p) by apply Hst.
        apply Hp1.
Qed.

(** C7, as the claim states it, fails: "2M-5D3M" has no insertion, the
    parser accepts it, positions 1 and 2 are valid, and with mapping start
    position 3 position 1 maps to 4 and position 2 to 0. *)
Lemma map_coordinate_decreases_over_negative_deletion :
  exists self,
    CIGARString_init "2M-5D3M" = Ok self
    /\ cigar self = [(2, Match); (-5, Deletion); (3, Match)]
    /\ 1 + 1 < get_tx_length self
    /\ map_coordinate 2 self 1 3 = Returns 4 []
    /\ map_coordinate 2 self (1 + 1) 3 = Returns 0 [].
Proof. eexists. repeat split. Qed.

(** C7, amended. For every region sequence with no Insertion region and no
    Deletion region of negative length, every mapping start position and
    every pair of consecutive valid transcript positions p and p+1, both
    calls return and [map_coordinate(p+1) >= map_coordinate(p)]. *)
Theorem map_coordinate_monotone :
  forall self p start,
    Forall no_insertion (cigar self) ->
    Forall deletion_length_nonnegative (cigar self) ->
    0 <= p -> p + 1 < get_tx_length self ->
    exists g g' ws ws',
      (forall extra,
          map_coordinate (Z.to_nat p + extra) self p start = Returns g ws)
      /\ (forall extra,
            map_coordinate (Z.to_nat (p + 1) + extra) self (p + 1) start
            = Returns g' ws')
      /\ g <= g'.
Proof.
  intros self p start Hins Hdel Hp Hp1.
  assert (Hall : Forall monotone_region (cigar self)).
  { apply Forall_forall. intros r Hr. split.
    - now apply (proj1 (Forall_forall _ _) Hins).
    - now apply (proj1 (Forall_forall _ _) Hdel). }
  destruct (in_bounds_region_0 self p) as [region0 H0]; [lia|].
  destruct (walks_to_consecutive_positions self p Hall (Z.to_nat p)
              (initial_state start region0)) as [st1 [H1 [Hw Hw1]]].
  - now apply (invariant_initial_state self _ Hall).
  - cbn [tx_ix initial_state]. lia.
  - exists (curr_pos st1), (curr_pos (loop_body self (p + 1) st1)),
      (warned st1), (warned (loop_body self (p + 1) st1)).
    split; [|split].
    + intros extra.
      rewrite (map_coordinate_in_bounds _ _ _ _ region0) by (assumption || lia).
      now rewrite Hw.
    + intros extra.
      rewrite (map_coordinate_in_bounds _ _ _ _ region0) by (assumption || lia).
      replace (Z.to_nat (p + 1)) with (S (Z.to_nat p)) by lia.
      now rewrite Hw1.
    + apply curr_pos_nondecreasing; apply H1.
Qed.

Lemma map_coordinate_monotone_witness :
  exists self,
    CIGARString_init "8M7D6M" = Ok self
    /\ exists g g' ws ws',
         (forall extra, map_coordinate (Z.to_nat 7 + extra) self 7 3 = Returns g ws)
         /\ (forall extra,
               map_coordinate (Z.to_nat (7 + 1) + extra) self (7 + 1) 3
               = Returns g' ws')
         /\ g <= g'.
Proof.
  exists {| cigar_str := "8M7D6M";
            cigar := [(8, Match); (7, Deletion); (6, Match)] |}.
  split; [reflexivity|].
  apply (map_coordinate_monotone _ 7 3).
  - repeat apply Forall_cons; try apply Forall_nil; discriminate.
  - repeat apply Forall_cons; try apply Forall_nil; intros _; cbn [fst]; lia.
  - lia.
  - vm_compute. reflexivity.
Defined.

(** ** A walk that stays in a last insertion of length -1 *)

Lemma stuck_loop_body self tx_pos st :
  stuck self tx_pos st ->
  stuck self tx_pos (loop_body self tx_pos st)
  /\ tx_ix (loop_body self tx_pos st) = tx_ix st.
Proof.
  unfold stuck, current_region. intros [Hr [Hn Hlt]].
  injection Hr as Hlen Htype.
  assert (Hnext : nth_error (cigar self) (S (S (region_ix st))) = None).
  { apply nth_error_None. apply nth_error_None in Hn. lia. }
  unfold loop_body, tick, next_region, advance.
  rewrite Htype, Hlen. unfold Insertion.
  cbn [Ascii.eqb Bool.eqb]. cbv iota.
  cbn [reached_end_of_region region_ix]. rewrite Hn.
  cbn [curr_region_length curr_region_type region_ix tx_ix].
  repeat split; try assumption; lia.
Qed.

Lemma stuck_while_loop self tx_pos :
  forall fuel st, stuck self tx_pos st -> while_loop fuel self tx_pos st = None.
Proof.
  induction fuel as [|fuel IH]; intros st H.
  - destruct H as [_ [_ H]]. simpl. apply Z.ltb_lt in H. now rewrite H.
  - rewrite while_loop_step by apply H.
    apply IH. now apply stuck_loop_body.
Qed.

(** C9, as the claim states it, fails: the parser accepts "2M2M2M-1I",
    whose transcript length is 5; for the in-bounds position 4 the fourth
    iteration leaves [tx_ix] at 3, and the call does not return whatever
    the number of iterations. *)
Lemma walk_does_not_terminate_on_negative_insertion :
  exists self,
    CIGARString_init "2M2M2M-1I" = Ok self
    /\ cigar self = [(2, Match); (2, Match); (2, Match); (-1, Insertion)]
    /\ 0 <= 4 < get_tx_length self
    /\ tx_ix (state_after 3 self 4 0 (2, Match)) = 3
    /\ tx_ix (state_after 4 self 4 0 (2, Match)) = 3
    /\ (forall fuel start, map_coordinate fuel self 4 start = OutOfFuel).
Proof.
  exists {| cigar_str := "2M2M2M-1I";
            cigar := [(2, Match); (2, Match); (2, Match); (-1, Insertion)] |}.
  repeat split; try discriminate.
  intros fuel start.
  rewrite (map_coordinate_in_bounds _ _ _ _ (2, Match));
    [|vm_compute; split; [discriminate|reflexivity]|reflexivity].
  destruct fuel as [|[|[|fuel]]]; try reflexivity.
  do 3 (rewrite while_loop_step by reflexivity).
  rewrite stuck_while_loop; [reflexivity|].
  repeat split.
Qed.

Lemma loop_body_unhandled self tx_pos st :
  curr_region_type st <> Match ->
  curr_region_type st <> Deletion ->
  curr_region_type st <> Insertion ->
  tx_ix (loop_body self tx_pos st) = tx_ix st + 1
  /\ curr_pos (loop_body self tx_pos st) = curr_pos st.
Proof.
  intros HM HD HI.
  apply Ascii.eqb_neq in HM, HD, HI. unfold Match, Deletion, Insertion in *.
  rewrite tx_ix_loop_body, curr_pos_loop_body. unfold advance.
  rewrite HM, HD, HI. lia.
Qed.

(** C9, amended. For every region sequence in which no Insertion region has
    a negative length (regions with other operation symbols included) and
    every in-bounds transcript position, the walk terminates: the call
    returns within [tx_pos] iterations, [tx_ix] strictly increases on every
    iteration, and when the operation of the active region is none of
    Match, Deletion and Insertion the iteration only adds 1 to [tx_ix]. *)
Theorem walk_terminates :
  forall self tx_pos start,
    Forall insertion_length_nonnegative (cigar self) ->
    0 <= tx_pos < get_tx_length self ->
    (exists chrom_pos warnings,
        forall extra,
          map_coordinate (Z.to_nat tx_pos + extra) self tx_pos start
          = Returns chrom_pos warnings)
    /\ (forall region0 n,
          nth_error (cigar self) 0 = Some region0 ->
          tx_ix (state_after n self tx_pos start region0)
          < tx_ix (state_after (S n) self tx_pos start region0))
    /\ (forall st,
          curr_region_type st <> Match ->
          curr_region_type st <> Deletion ->
          curr_region_type st <> Insertion ->
          tx_ix (loop_body self tx_pos st) = tx_ix st + 1
          /\ curr_pos (loop_body self tx_pos st) = curr_pos st).
Proof.
  intros self tx_pos start Hall Hin.
  destruct (in_bounds_region_0 self tx_pos Hin) as [region0 H0].
  split; [|split].
  - destruct (while_loop_terminates self tx_pos Hall (Z.to_nat tx_pos)
                (initial_state start region0)) as [st Hst].
    + now apply (invariant_initial_state self _ Hall).
    + cbn [tx_ix initial_state]. rewrite Z.sub_0_r. apply Nat.le_refl.
    + exists (curr_pos st), (warned st). intros extra.
      rewrite (map_coordinate_in_bounds _ _ _ _ region0) by assumption.
      now rewrite (while_loop_more_fuel _ _ _ _ _ extra Hst).
  - intros r n Hr.
    change (state_after (S n) self tx_pos start r)
      with (loop_body self tx_pos (state_after n self tx_pos start r)).
    apply tx_ix_increases.
    now apply (invariant_state_after self _ Hall).
  - intros st. apply loop_body_unhandled.
Qed.

Lemma walk_terminates_witness :
  exists self,
    CIGARString_init "2M3S2I4M" = Ok self
    /\ (exists chrom_pos warnings,
          forall extra,
            map_coordinate (Z.to_nat 5 + extra) self 5 10
            = Returns chrom_pos warnings)
    /\ (forall region0 n,
          nth_error (cigar self) 0 = Some region0 ->
          tx_ix (state_after n self 5 10 region0)
          < tx_ix (state_after (S n) self 5 10 region0))
    /\ (forall st,
          curr_region_type st <> Match ->
          curr_region_type st <> Deletion ->
          curr_region_type st <> Insertion ->
          tx_ix (loop_body self 5 st) = tx_ix st + 1
          /\ curr_pos (loop_body self 5 st) = curr_pos st).
Proof.
  exists {| cigar_str := "2M3S2I4M";
            cigar := [(2, Match); (3, SoftClip); (2, Insertion); (4, Match)] |}.
  split; [reflexivity|].
  apply (walk_terminates _ 5 10).
  - repeat apply Forall_cons; try apply Forall_nil; intros _; cbn [fst]; lia.
  - vm_compute. split; [discriminate|reflexivity].
Defined.

(** ** The walk, region by region *)

Lemma walks_exit self tx_pos st : tx_pos <= tx_ix st -> walks self tx_pos st st.
Proof. intros H. exists O. now apply while_loop_exit. Qed.

Lemma walks_step self tx_pos st st' :
  tx_ix st < tx_pos ->
  walks self tx_pos (loop_body self tx_pos st) st' ->
  walks self tx_pos st st'.
Proof.
  intros H [fuel Hw]. exists (S fuel). now rewrite while_loop_step.
Qed.

Lemma walks_deterministic self tx_pos st st1 st2 :
  walks self tx_pos st st1 -> walks self tx_pos st st2 -> st1 = st2.
Proof. intros [f1 H1] [f2 H2]. eapply while_loop_deterministic; eassumption. Qed.

Lemma map_coordinate_returns_walks self tx_pos start region0 st :
  0 <= tx_pos < get_tx_length self ->
  nth_error (cigar self) 0 = Some region0 ->
  walks self tx_pos (initial_state start region0) st ->
  map_coordinate_returns self tx_pos start (curr_pos st) (warned st).
Proof.
  intros Hin H0 [fuel Hw]. exists fuel.
  rewrite (map_coordinate_in_bounds _ _ _ _ region0) by assumption.
  now rewrite Hw.
Qed.

Lemma map_coordinate_returns_deterministic self tx_pos start v1 ws1 v2 ws2 :
  map_coordinate_returns self tx_pos start v1 ws1 ->
  map_coordinate_returns self tx_pos start v2 ws2 ->
  v1 = v2 /\ ws1 = ws2.
Proof. intros [f1 H1] [f2 H2]. eapply map_coordinate_deterministic; eassumption. Qed.

Ltac project :=
  cbn [curr_pos curr_region_length curr_region_type region_ix within_region_ix
       tx_ix reached_end_of_region warned fst snd].

Ltac loop_body_case st :=
  destruct st as [cp len type ix within t flag ws];
  cbn [curr_pos curr_region_length curr_region_type region_ix within_region_ix
       tx_ix reached_end_of_region warned] in *;
  unfold Match, Deletion, Insertion in *;
  subst;
  unfold loop_body, tick, next_region, advance, match_step, enter_region;
  cbn [curr_pos curr_region_length curr_region_type region_ix within_region_ix
       tx_ix reached_end_of_region warned Ascii.eqb Bool.eqb fst snd].

Lemma loop_body_match_inside self tx_pos st :
  curr_region_type st = Match ->
  reached_end_of_region st = false ->
  within_region_ix st + 1 <> curr_region_length st - 1 ->
  loop_body self tx_pos st = match_step st.
Proof.
  intros HT Hflag Hw. loop_body_case st.
  apply Z.eqb_neq in Hw. rewrite Hw. reflexivity.
Qed.

Lemma loop_body_match_end self tx_pos st r :
  curr_region_type st = Match ->
  within_region_ix st + 1 = curr_region_length st - 1 ->
  nth_error (cigar self) (S (region_ix st)) = Some r ->
  loop_body self tx_pos st = enter_region st r 1 1.
Proof.
  intros HT Hw Hr. loop_body_case st.
  apply Z.eqb_eq in Hw. rewrite Hw.
  cbn [reached_end_of_region region_ix]. rewrite Hr. now destruct r.
Qed.

Lemma loop_body_deletion self tx_pos st r :
  curr_region_type st = Deletion ->
  nth_error (cigar self) (S (region_ix st)) = Some r ->
  loop_body self tx_pos st = enter_region st r (curr_region_length st + 1) 1.
Proof.
  intros HT Hr. loop_body_case st. rewrite Hr. now destruct r.
Qed.

Lemma loop_body_insertion self tx_pos st r :
  curr_region_type st = Insertion ->
  nth_error (cigar self) (S (region_ix st)) = Some r ->
  loop_body self tx_pos st
  = enter_region
      {| curr_pos := curr_pos st;
         curr_region_length := curr_region_length st;
         curr_region_type := curr_region_type st;
         region_ix := region_ix st;
         within_region_ix := within_region_ix st;
         tx_ix := tx_ix st;
         reached_end_of_region := reached_end_of_region st;
         warned :=
           if tx_pos <=? tx_ix st + curr_region_length st
           then warned st ++ [insertion_warning self tx_pos]
           else warned st |}
      r 1 (curr_region_length st + 1).
Proof.
  intros HT Hr. loop_body_case st. rewrite Hr. destruct r.
  project. f_equal. lia.
Qed.

Lemma loop_body_match self tx_pos st :
  curr_region_type st = Match ->
  curr_pos (loop_body self tx_pos st) = curr_pos st + 1
  /\ tx_ix (loop_body self tx_pos st) = tx_ix st + 1
  /\ warned (loop_body self tx_pos st) = warned st.
Proof.
  intros HT. loop_body_case st. split_cases; repeat split; reflexivity.
Qed.

(** [k] iterations in a Match region whose end is not met before the last
    of them. *)
Lemma walks_in_match self tx_pos :
  forall k st,
    curr_region_type st = Match ->
    reached_end_of_region st = false ->
    tx_ix st + Z.of_nat k = tx_pos ->
    (forall j, 0 < j < Z.of_nat k ->
               within_region_ix st + j <> curr_region_length st - 1) ->
    exists st',
      walks self tx_pos st st'
      /\ curr_pos st' = curr_pos st + Z.of_nat k
      /\ warned st' = warned st.
Proof.
  induction k as [|k IH]; intros st HT Hflag Hk Hend.
  - exists st. split; [apply walks_exit; lia|]. split; [lia|reflexivity].
  - destruct k as [|k].
    + destruct (loop_body_match self tx_pos st HT) as [Hc [Ht Hws]].
      exists (loop_body self tx_pos st). split; [|split].
      * apply walks_step; [lia|]. apply walks_exit. lia.
      * lia.
      * assumption.
    + assert (Hstep : loop_body self tx_pos st = match_step st).
      { apply loop_body_match_inside; try assumption.
        apply (Hend 1). lia. }
      destruct (IH (match_step st)) as [st' [Hw [Hc Hws]]].
      * exact HT.
      * reflexivity.
      * cbn [tx_ix match_step]. lia.
      * intros j Hj. cbn [within_region_ix curr_region_length match_step].
        replace (within_region_ix st + 1 + j)
          with (within_region_ix st + (j + 1)) by lia.
        apply Hend. lia.
      * exists st'. split; [|split].
        -- apply walks_step; [lia|]. now rewrite Hstep.
        -- rewrite Hc. cbn [curr_pos match_step]. lia.
        -- rewrite Hws. reflexivity.
Qed.

(** The [S k] iterations that take the walk from inside a Match region to
    the entry of the next region. *)
Lemma walks_across_match self tx_pos r :
  forall k st st',
    curr_region_type st = Match ->
    reached_end_of_region st = false ->
    within_region_ix st + Z.of_nat (S k) = curr_region_length st - 1 ->
    tx_ix st + Z.of_nat (S k) <= tx_pos ->
    nth_error (cigar self) (S (region_ix st)) = Some r ->
    walks self tx_pos
      (enter_region st r (Z.of_nat (S k)) (Z.of_nat (S k))) st' ->
    walks self tx_pos st st'.
Proof.
  induction k as [|k IH]; intros st st' HT Hflag Hw Ht Hr Hwalk.
  - apply walks_step; [lia|].
    rewrite (loop_body_match_end self tx_pos st r) by (assumption || lia).
    exact Hwalk.
  - apply walks_step; [lia|].
    rewrite loop_body_match_inside by (assumption || lia).
    apply IH.
    + exact HT.
    + reflexivity.
    + cbn [within_region_ix curr_region_length match_step]. lia.
    + cbn [tx_ix match_step]. lia.
    + exact Hr.
    + replace (enter_region (match_step st) r (Z.of_nat (S k)) (Z.of_nat (S k)))
        with (enter_region st r (Z.of_nat (S (S k))) (Z.of_nat (S (S k))));
        [exact Hwalk|].
      unfold enter_region, match_step. project. f_equal; lia.
Qed.

(** Iterations in a region whose operation the loop body does not handle. *)
Lemma loop_body_unhandled_state self tx_pos st :
  curr_region_type st <> Match ->
  curr_region_type st <> Deletion ->
  curr_region_type st <> Insertion ->
  reached_end_of_region st = false ->
  loop_body self tx_pos st = tick st.
Proof.
  intros HM HD HI Hflag.
  apply Ascii.eqb_neq in HM, HD, HI. unfold Match, Deletion, Insertion in *.
  unfold loop_body, next_region, advance. rewrite HM, HD, HI, Hflag. reflexivity.
Qed.

Lemma walks_in_unhandled self tx_pos :
  forall k st,
    curr_region_type st <> Match ->
    curr_region_type st <> Deletion ->
    curr_region_type st <> Insertion ->
    reached_end_of_region st = false ->
    tx_ix st + Z.of_nat k = tx_pos ->
    exists st',
      walks self tx_pos st st'
      /\ curr_pos st' = curr_pos st /\ warned st' = warned st.
Proof.
  induction k as [|k IH]; intros st HM HD HI Hflag Hk.
  - exists st. split; [apply walks_exit; lia|]. split; reflexivity.
  - destruct (IH (tick st)) as [st' [Hw [Hc Hws]]]; try assumption.
    + cbn [tx_ix tick]. lia.
    + exists st'. split; [|split; assumption].
      apply walks_step; [lia|].
      now rewrite loop_body_unhandled_state.
Qed.

Ltac tx_length_of H :=
  rewrite get_tx_length_TranscriptLength, H;
  unfold TranscriptLength, contribution, Match, Deletion, Insertion;
  cbn [fold_right fst snd Ascii.eqb Bool.eqb orb].

Lemma region_0_of_cons self r rest :
  cigar self = r :: rest -> nth_error (cigar self) 0 = Some r.
Proof. now intros ->. Qed.

(** ** Further properties of [map_coordinate] *)

Lemma map_coordinate_position_0_aux self start fuel :
  0 < get_tx_length self ->
  map_coordinate fuel self 0 start = Returns start [].
Proof.
  intros H.
  destruct (in_bounds_region_0 self 0) as [region0 H0]; [lia|].
  rewrite (map_coordinate_in_bounds _ _ _ _ region0) by (assumption || lia).
  rewrite while_loop_exit; [reflexivity|]. cbn [tx_ix initial_state]. lia.
Qed.

(** X1. Transcript position 0 of a CIGAR string of positive transcript
    length maps to the mapping start position, without a warning and
    without a loop iteration, whatever the regions are. *)
Theorem map_coordinate_position_0 :
  forall self start fuel,
    0 < get_tx_length self ->
    map_coordinate fuel self 0 start = Returns start [].
Proof.
  intros self start fuel. apply map_coordinate_position_0_aux.
Qed.

Lemma map_coordinate_position_0_witness :
  map_coordinate 0
    {| cigar_str := "5D10M"; cigar := [(5, Deletion); (10, Match)] |} 0 7
  = Returns 7 [].
Proof. apply map_coordinate_position_0. reflexivity. Defined.

(** X2. When region 0 is a Match region of length [len], every in-bounds
    transcript position [p <= len - 1] maps to [start + p], without a
    warning. *)
Theorem map_coordinate_first_match :
  forall self len rest p start,
    cigar self = (len, Match) :: rest ->
    0 <= p < get_tx_length self ->
    p <= len - 1 ->
    map_coordinate_returns self p start (start + p) [].
Proof.
  intros self len rest p start Hc Hin Hp.
  destruct (walks_in_match self p (Z.to_nat p) (initial_state start (len, Match)))
    as [st [Hw [Hpos Hws]]]; try reflexivity.
  - cbn [tx_ix initial_state]. lia.
  - intros j Hj. cbn [within_region_ix curr_region_length initial_state fst]. lia.
  - cbn [curr_pos warned initial_state] in Hpos, Hws.
    replace (start + p) with (curr_pos st) by lia. rewrite <- Hws.
    eapply map_coordinate_returns_walks; try eassumption.
    now apply (region_0_of_cons _ _ rest).
Qed.

Lemma map_coordinate_first_match_witness :
  map_coordinate_returns
    {| cigar_str := "8M7D6M"; cigar := [(8, Match); (7, Deletion); (6, Match)] |}
    7 3 (3 + 7) [].
Proof.
  apply (map_coordinate_first_match _ 8 [(7, Deletion); (6, Match)]).
  - reflexivity.
  - vm_compute. split; [discriminate|reflexivity].
  - lia.
Defined.

(** X3. A Match region of length 1 or less at the start of the CIGAR
    string is never left: every in-bounds transcript position [p] maps to
    [start + p], whatever regions follow (the deletion of "1M5D3M" is not
    crossed). *)
Theorem map_coordinate_short_first_match :
  forall self len rest p start,
    cigar self = (len, Match) :: rest ->
    len <= 1 ->
    0 <= p < get_tx_length self ->
    map_coordinate_returns self p start (start + p) [].
Proof.
  intros self len rest p start Hc Hlen Hin.
  destruct (walks_in_match self p (Z.to_nat p) (initial_state start (len, Match)))
    as [st [Hw [Hpos Hws]]]; try reflexivity.
  - cbn [tx_ix initial_state]. lia.
  - intros j Hj. cbn [within_region_ix curr_region_length initial_state fst]. lia.
  - cbn [curr_pos warned initial_state] in Hpos, Hws.
    replace (start + p) with (curr_pos st) by lia. rewrite <- Hws.
    eapply map_coordinate_returns_walks; try eassumption.
    now apply (region_0_of_cons _ _ rest).
Qed.

Lemma map_coordinate_short_first_match_witness :
  map_coordinate_returns
    {| cigar_str := "1M5D3M"; cigar := [(1, Match); (5, Deletion); (3, Match)] |}
    3 10 (10 + 3) [].
Proof.
  apply (map_coordinate_short_first_match _ 1 [(5, Deletion); (3, Match)]).
  - reflexivity.
  - lia.
  - vm_compute. split; [discriminate|reflexivity].
Defined.

(** X4. When the operation of region 0 is none of M, D and I (S, H, X or
    any other letter), the walk never leaves region 0 and never moves the
    genomic position: every in-bounds transcript position maps to the
    mapping start position, without a warning. *)
Theorem map_coordinate_unhandled_first_region :
  forall self len op rest p start,
    cigar self = (len, op) :: rest ->
    op <> Match -> op <> Deletion -> op <> Insertion ->
    0 <= p < get_tx_length self ->
    map_coordinate_returns self p start start [].
Proof.
  intros self len op rest p start Hc HM HD HI Hin.
  destruct (walks_in_unhandled self p (Z.to_nat p) (initial_state start (len, op)))
    as [st [Hw [Hpos Hws]]]; try assumption; try reflexivity.
  - cbn [tx_ix initial_state]. lia.
  - cbn [curr_pos warned initial_state] in Hpos, Hws.
    rewrite <- Hpos at 2. rewrite <- Hws.
    eapply map_coordinate_returns_walks; try eassumption.
    now apply (region_0_of_cons _ _ rest).
Qed.

Lemma map_coordinate_unhandled_first_region_witness :
  map_coordinate_returns
    {| cigar_str := "3S5M2D4M"; cigar := [(3, SoftClip); (5, Match); (2, Deletion); (4, Match)] |}
    8 10 10 [].
Proof.
  apply (map_coordinate_unhandled_first_region _ 3 SoftClip
           [(5, Match); (2, Deletion); (4, Match)]); try discriminate.
  - reflexivity.
  - vm_compute. split; [discriminate|reflexivity].
Defined.

(** The walk from the start of a region sequence [(a, M); r; ...] to the
    entry of [r], for [a >= 2]. *)
Lemma walks_across_first_match self a r rest p start st' :
  cigar self = (a, Match) :: r :: rest ->
  2 <= a -> a - 1 <= p ->
  walks self p (enter_region (initial_state start (a, Match)) r (a - 1) (a - 1)) st' ->
  walks self p (initial_state start (a, Match)) st'.
Proof.
  intros Hc Ha Hp Hw.
  assert (Hk : Z.of_nat (S (Z.to_nat (a - 2))) = a - 1) by lia.
  apply (walks_across_match self p r (Z.to_nat (a - 2))); try reflexivity.
  - rewrite Hk. cbn [within_region_ix curr_region_length initial_state fst]. lia.
  - rewrite Hk. cbn [tx_ix initial_state]. lia.
  - cbn [region_ix initial_state]. now rewrite Hc.
  - now rewrite Hk.
Qed.

(** X5. Match, Deletion, Match. For the regions [(a, M); (d, D); (b, M)]
    with [a >= 2] and a transcript position [0 <= p < a + b], the call
    returns without a warning [start + p] when [p < a] and
    [start + p + d] when [a <= p]: the deletion moves the positions of the
    second Match region by its length. *)
Theorem map_coordinate_match_deletion_match :
  forall self a d b p start,
    cigar self = [(a, Match); (d, Deletion); (b, Match)] ->
    2 <= a ->
    0 <= p < a + b ->
    (p < a -> map_coordinate_returns self p start (start + p) [])
    /\ (a <= p -> map_coordinate_returns self p start (start + p + d) []).
Proof.
  intros self a d b p start Hc Ha Hp.
  assert (Hin : 0 <= p < get_tx_length self) by (tx_length_of Hc; lia).
  assert (H0 : nth_error (cigar self) 0 = Some (a, Match)) by now rewrite Hc.
  split; intros Hcase.
  - destruct (walks_in_match self p (Z.to_nat p) (initial_state start (a, Match)))
      as [st [Hw [Hpos Hws]]]; try reflexivity.
    + cbn [tx_ix initial_state]. lia.
    + intros j Hj. cbn [within_region_ix curr_region_length initial_state fst]. lia.
    + cbn [curr_pos warned initial_state] in Hpos, Hws.
      replace (start + p) with (curr_pos st) by lia. rewrite <- Hws.
      eapply map_coordinate_returns_walks; eassumption.
  - set (st1 := enter_region (initial_state start (a, Match)) (d, Deletion) (a - 1) (a - 1)).
    set (st2 := enter_region st1 (b, Match) (d + 1) 1).
    destruct (walks_in_match self p (Z.to_nat (p - a)) st2)
      as [st [Hw [Hpos Hws]]]; try reflexivity.
    + unfold st2, st1. cbn [tx_ix enter_region initial_state]. lia.
    + intros j Hj. unfold st2.
      cbn [within_region_ix curr_region_length enter_region fst]. lia.
    + unfold st2, st1 in Hpos, Hws.
      cbn [curr_pos warned enter_region initial_state] in Hpos, Hws.
      replace (start + p + d) with (curr_pos st) by lia. rewrite <- Hws.
      eapply map_coordinate_returns_walks; try eassumption.
      apply (walks_across_first_match self a (d, Deletion) [(b, Match)]);
        try assumption; try lia.
      apply walks_step; [cbn [tx_ix enter_region initial_state]; lia|].
      rewrite (loop_body_deletion self p _ (b, Match)).
      * exact Hw.
      * reflexivity.
      * cbn [region_ix enter_region initial_state]. now rewrite Hc.
Qed.

Lemma map_coordinate_match_deletion_match_witness :
  map_coordinate_returns
    {| cigar_str := "8M7D6M"; cigar := [(8, Match); (7, Deletion); (6, Match)] |}
    9 3 (3 + 9 + 7) [].
Proof.
  apply (map_coordinate_match_deletion_match _ 8 7 6 9 3).
  - reflexivity.
  - lia.
  - lia.
  - lia.
Defined.

(** X6. Match, Insertion, Match. For the regions [(a, M); (i, I); (b, M)]
    with [a >= 2] and a transcript position [0 <= p < a + i + b], the call
    returns [start + p] without a warning when [p < a]; [start + a], the
    coordinate right of the insertion, with the insertion warning when
    [a <= p < a + i]; and [start + p - i] without a warning when
    [a + i <= p]. *)
Theorem map_coordinate_match_insertion_match :
  forall self a i b p start,
    cigar self = [(a, Match); (i, Insertion); (b, Match)] ->
    2 <= a ->
    0 <= p < a + i + b ->
    (p < a -> map_coordinate_returns self p start (start + p) [])
    /\ (a <= p < a + i ->
        map_coordinate_returns self p start (start + a) [insertion_warning self p])
    /\ (a <= p -> a + i <= p ->
        map_coordinate_returns self p start (start + p - i) []).
Proof.
  intros self a i b p start Hc Ha Hp.
  assert (Hin : 0 <= p < get_tx_length self) by (tx_length_of Hc; lia).
  assert (H0 : nth_error (cigar self) 0 = Some (a, Match)) by now rewrite Hc.
  set (st1 := enter_region (initial_state start (a, Match)) (i, Insertion) (a - 1) (a - 1)).
  assert (Hstep : forall st',
             a <= p ->
             walks self p (loop_body self p st1) st' ->
             walks self p (initial_state start (a, Match)) st').
  { intros st' Hcase Hw.
    apply (walks_across_first_match self a (i, Insertion) [(b, Match)]);
      try assumption; try lia.
    apply walks_step; [cbn [tx_ix enter_region initial_state]; lia|].
    exact Hw. }
  assert (Hbody : loop_body self p st1
                  = enter_region
                      {| curr_pos := start + (a - 1);
                         curr_region_length := i;
                         curr_region_type := Insertion;
                         region_ix := 1;
                         within_region_ix := 0;
                         tx_ix := 0 + (a - 1);
                         reached_end_of_region := false;
                         warned :=
                           if p <=? 0 + (a - 1) + i
                           then [] ++ [insertion_warning self p] else [] |}
                      (b, Match) 1 (i + 1)).
  { rewrite (loop_body_insertion self p st1 (b, Match)); [reflexivity|reflexivity|].
    cbn [region_ix st1 enter_region initial_state]. now rewrite Hc. }
  split; [|split].
  - intros Hcase.
    destruct (walks_in_match self p (Z.to_nat p) (initial_state start (a, Match)))
      as [st [Hw [Hpos Hws]]]; try reflexivity.
    + cbn [tx_ix initial_state]. lia.
    + intros j Hj. cbn [within_region_ix curr_region_length initial_state fst]. lia.
    + cbn [curr_pos warned initial_state] in Hpos, Hws.
      replace (start + p) with (curr_pos st) by lia. rewrite <- Hws.
      eapply map_coordinate_returns_walks; eassumption.
  - intros Hcase.
    assert (Hle : (p <=? 0 + (a - 1) + i) = true) by (apply Z.leb_le; lia).
    rewrite Hle in Hbody.
    replace (start + a) with (curr_pos (loop_body self p st1))
      by (rewrite Hbody; cbn [curr_pos enter_region]; lia).
    replace [insertion_warning self p] with (warned (loop_body self p st1))
      by (rewrite Hbody; reflexivity).
    eapply map_coordinate_returns_walks; try eassumption.
    apply Hstep; [lia|]. apply walks_exit.
    rewrite Hbody. cbn [tx_ix enter_region]. lia.
  - intros Hcase Hcase'.
    assert (Hle : (p <=? 0 + (a - 1) + i) = false) by (apply Z.leb_gt; lia).
    rewrite Hle in Hbody.
    destruct (walks_in_match self p (Z.to_nat (p - a - i)) (loop_body self p st1))
      as [st [Hw [Hpos Hws]]]; try (rewrite Hbody; reflexivity).
    + rewrite Hbody. cbn [tx_ix enter_region]. lia.
    + intros j Hj. rewrite Hbody.
      cbn [within_region_ix curr_region_length enter_region fst]. lia.
    + rewrite Hbody in Hpos, Hws.
      cbn [curr_pos warned enter_region] in Hpos, Hws.
      replace (start + p - i) with (curr_pos st) by lia. rewrite <- Hws.
      eapply map_coordinate_returns_walks; try eassumption.
      now apply Hstep.
Qed.

Lemma map_coordinate_match_insertion_match_witness :
  exists self,
    CIGARString_init "4M3I5M" = Ok self
    /\ map_coordinate_returns self 5 10 (10 + 4) [insertion_warning self 5].
Proof.
  exists {| cigar_str := "4M3I5M"; cigar := [(4, Match); (3, Insertion); (5, Match)] |}.
  split; [reflexivity|].
  apply (map_coordinate_match_insertion_match _ 4 3 5 5 10).
  - reflexivity.
  - lia.
  - lia.
  - lia.
Defined.

(** X7. Leading deletion. For the regions [(d, D); (b, M)] and a
    transcript position [0 <= p < b], the call returns without a warning
    [start] when [p = 0], the deletion not being crossed, and
    [start + d + p] when [1 <= p]. *)
Theorem map_coordinate_deletion_match :
  forall self d b p start,
    cigar self = [(d, Deletion); (b, Match)] ->
    0 <= p < b ->
    (p = 0 -> map_coordinate_returns self p start start [])
    /\ (1 <= p -> map_coordinate_returns self p start (start + d + p) []).
Proof.
  intros self d b p start Hc Hp.
  assert (Hin : 0 <= p < get_tx_length self) by (tx_length_of Hc; lia).
  assert (H0 : nth_error (cigar self) 0 = Some (d, Deletion)) by now rewrite Hc.
  split; intros Hcase.
  - subst p. exists O. apply map_coordinate_position_0_aux. lia.
  - set (st1 := enter_region (initial_state start (d, Deletion)) (b, Match) (d + 1) 1).
    destruct (walks_in_match self p (Z.to_nat (p - 1)) st1)
      as [st [Hw [Hpos Hws]]]; try reflexivity.
    + unfold st1. cbn [tx_ix enter_region initial_state]. lia.
    + intros j Hj. unfold st1.
      cbn [within_region_ix curr_region_length enter_region fst]. lia.
    + unfold st1 in Hpos, Hws.
      cbn [curr_pos warned enter_region initial_state] in Hpos, Hws.
      replace (start + d + p) with (curr_pos st) by lia. rewrite <- Hws.
      eapply map_coordinate_returns_walks; try eassumption.
      apply walks_step; [cbn [tx_ix initial_state]; lia|].
      rewrite (loop_body_deletion self p _ (b, Match)).
      * exact Hw.
      * reflexivity.
      * cbn [region_ix initial_state]. now rewrite Hc.
Qed.

Lemma map_coordinate_deletion_match_witness :
  map_coordinate_returns
    {| cigar_str := "5D10M"; cigar := [(5, Deletion); (10, Match)] |}
    1 0 (0 + 5 + 1) [].
Proof.
  apply (map_coordinate_deletion_match _ 5 10 1 0).
  - reflexivity.
  - lia.
  - lia.
Defined.

(** ** Warnings *)

Lemma warned_loop_body self tx_pos st :
  warned st = [] ->
  warned (loop_body self tx_pos st) = []
  \/ (warned (loop_body self tx_pos st) = [insertion_warning self tx_pos]
      /\ tx_pos < tx_ix (loop_body self tx_pos st)
      /\ curr_region_type st = Insertion).
Proof.
  intros Hws. rewrite tx_ix_loop_body.
  destruct st as [cp len type ix within t flag ws]. project.
  cbn [warned] in Hws. subst ws.
  unfold loop_body, tick, next_region, advance. project.
  destruct (Ascii.eqb type "M") eqn:EM;
    [left; project; split_cases; reflexivity|].
  destruct (Ascii.eqb type "D") eqn:ED;
    [left; project; split_cases; reflexivity|].
  destruct (Ascii.eqb type "I") eqn:EI;
    [|left; project; split_cases; reflexivity].
  apply Ascii.eqb_eq in EI. project.
  destruct (tx_pos <=? t + len) eqn:E.
  - right. apply Z.leb_le in E. repeat split; try assumption; try lia.
    split_cases; reflexivity.
  - left. split_cases; reflexivity.
Qed.

Lemma warned_while_loop self tx_pos :
  forall fuel st st',
    warned st = [] ->
    while_loop fuel self tx_pos st = Some st' ->
    warned st' = [] \/ warned st' = [insertion_warning self tx_pos].
Proof.
  induction fuel as [|fuel IH]; intros st st' Hws Hw; simpl in Hw.
  - destruct (tx_ix st <? tx_pos); [discriminate|].
    injection Hw as <-. now left.
  - destruct (tx_ix st <? tx_pos); [|injection Hw as <-; now left].
    destruct (warned_loop_body self tx_pos st Hws) as [H|[H [Ht _]]].
    + now apply (IH _ _ H).
    + rewrite while_loop_exit in Hw by lia. injection Hw as <-. now right.
Qed.

(** X8. A call that returns has emitted either no warning or exactly one,
    the insertion warning that names the queried position and the CIGAR
    string. *)
Theorem map_coordinate_at_most_one_warning :
  forall fuel self tx_pos start chrom_pos warnings,
    map_coordinate fuel self tx_pos start = Returns chrom_pos warnings ->
    warnings = [] \/ warnings = [insertion_warning self tx_pos].
Proof.
  intros fuel self tx_pos start chrom_pos warnings. unfold map_coordinate.
  destruct ((tx_pos <? 0) || (tx_pos >=? get_tx_length self)); [discriminate|].
  destruct (nth_error (cigar self) 0) as [region0|]; [|discriminate].
  destruct (while_loop fuel self tx_pos (initial_state start region0))
    as [st|] eqn:E; [|discriminate].
  intros [= _ <-].
  apply (warned_while_loop self tx_pos fuel (initial_state start region0) st);
    [reflexivity|assumption].
Qed.

Lemma map_coordinate_at_most_one_warning_witness :
  exists self warnings,
    CIGARString_init "2M2I2M" = Ok self
    /\ map_coordinate 3 self 3 10 = Returns 12 warnings
    /\ (warnings = [] \/ warnings = [insertion_warning self 3]).
Proof.
  exists {| cigar_str := "2M2I2M"; cigar := [(2, Match); (2, Insertion); (2, Match)] |}.
  eexists. split; [reflexivity|]. split; [reflexivity|].
  apply (map_coordinate_at_most_one_warning 3 _ 3 10 12). reflexivity.
Defined.

Lemma warned_while_loop_no_insertion self tx_pos :
  Forall no_insertion (cigar self) ->
  forall fuel st st',
    no_insertion (current_region st) ->
    warned st = [] ->
    while_loop fuel self tx_pos st = Some st' ->
    warned st' = [].
Proof.
  intros Hall. induction fuel as [|fuel IH]; intros st st' Hst Hws Hw; simpl in Hw.
  - destruct (tx_ix st <? tx_pos); [discriminate|]. now injection Hw as <-.
  - destruct (tx_ix st <? tx_pos); [|now injection Hw as <-].
    apply (IH (loop_body self tx_pos st)); try assumption.
    + now apply invariant_loop_body.
    + destruct (warned_loop_body self tx_pos st Hws) as [H|[_ [_ H]]]; [assumption|].
      now elim Hst.
Qed.

(** X9. For a region sequence without Insertion regions, a call that
    returns has emitted no warning. *)
Theorem map_coordinate_no_insertion_no_warning :
  forall fuel self tx_pos start chrom_pos warnings,
    Forall no_insertion (cigar self) ->
    map_coordinate fuel self tx_pos start = Returns chrom_pos warnings ->
    warnings = [].
Proof.
  intros fuel self tx_pos start chrom_pos warnings Hall. unfold map_coordinate.
  destruct ((tx_pos <? 0) || (tx_pos >=? get_tx_length self)); [discriminate|].
  destruct (nth_error (cigar self) 0) as [region0|] eqn:H0; [|discriminate].
  destruct (while_loop fuel self tx_pos (initial_state start region0))
    as [st|] eqn:E; [|discriminate].
  intros [= _ <-].
  apply (warned_while_loop_no_insertion self tx_pos Hall fuel
           (initial_state start region0) st); try assumption.
  - now apply (invariant_initial_state self _ Hall).
  - reflexivity.
Qed.

Lemma map_coordinate_no_insertion_no_warning_witness :
  exists warnings,
    map_coordinate 9
      {| cigar_str := "8M7D6M"; cigar := [(8, Match); (7, Deletion); (6, Match)] |}
      9 3
    = Returns 19 warnings
    /\ warnings = [].
Proof.
  exists []. split; [vm_compute; reflexivity|].
  apply (map_coordinate_no_insertion_no_warning 9
           {| cigar_str := "8M7D6M"; cigar := [(8, Match); (7, Deletion); (6, Match)] |}
           9 3 19).
  - repeat apply Forall_cons; try apply Forall_nil; discriminate.
  - vm_compute. reflexivity.
Defined.

(** ** Dependence on the mapping start position *)

Lemma loop_body_shift self tx_pos d st :
  loop_body self tx_pos (shift d st) = shift d (loop_body self tx_pos st).
Proof.
  destruct st as [cp len type ix within t flag ws].
  unfold loop_body, tick, next_region, advance, shift. project.
  destruct (Ascii.eqb type "M"); project;
    [split_cases; project; f_equal; lia|].
  destruct (Ascii.eqb type "D"); project;
    [split_cases; project; f_equal; lia|].
  destruct (Ascii.eqb type "I"); project;
    split_cases; project; f_equal; lia.
Qed.

Lemma while_loop_shift self tx_pos d :
  forall fuel st,
    while_loop fuel self tx_pos (shift d st)
    = option_map (shift d) (while_loop fuel self tx_pos st).
Proof.
  induction fuel as [|fuel IH]; intros st; simpl.
  - change (tx_ix (shift d st)) with (tx_ix st).
    destruct (tx_ix st <? tx_pos); reflexivity.
  - change (tx_ix (shift d st)) with (tx_ix st).
    destruct (tx_ix st <? tx_pos); [|reflexivity].
    rewrite loop_body_shift. apply IH.
Qed.

(** X10. Moving the mapping start position by [d] moves the returned
    genomic coordinate by [d] and changes nothing else: the same warnings,
    the same exception, the same number of iterations. *)
Theorem map_coordinate_shift :
  forall fuel self tx_pos start d,
    map_coordinate fuel self tx_pos (start + d)
    = shift_outcome d (map_coordinate fuel self tx_pos start).
Proof.
  intros fuel self tx_pos start d. unfold map_coordinate.
  destruct ((tx_pos <? 0) || (tx_pos >=? get_tx_length self)); [reflexivity|].
  destruct (nth_error (cigar self) 0) as [region0|]; [|reflexivity].
  change (initial_state (start + d) region0)
    with (shift d (initial_state start region0)).
  rewrite while_loop_shift.
  destruct (while_loop fuel self tx_pos (initial_state start region0)); reflexivity.
Qed.

(** ** Order of the returned coordinates *)

Lemma forget_warnings_loop_body self p q st st' :
  forget_warnings st = forget_warnings st' ->
  forget_warnings (loop_body self p st) = forget_warnings (loop_body self q st').
Proof.
  destruct st as [cp len type ix within t flag ws].
  destruct st' as [cp' len' type' ix' within' t' flag' ws'].
  unfold forget_warnings at 1 2. project.
  intros [= <- <- <- <- <- <- <-].
  unfold forget_warnings, loop_body, tick, next_region, advance. project.
  destruct (Ascii.eqb type "M"); project; [split_cases; reflexivity|].
  destruct (Ascii.eqb type "D"); project; [split_cases; reflexivity|].
  destruct (Ascii.eqb type "I"); project; split_cases; reflexivity.
Qed.

Lemma forget_warnings_fields st st' :
  forget_warnings st = forget_warnings st' ->
  curr_pos st = curr_pos st' /\ tx_ix st = tx_ix st'
  /\ current_region st = current_region st'.
Proof.
  destruct st, st'. unfold forget_warnings, current_region. project.
  intros [= <- <- <- <- <- <- <-]. repeat split.
Qed.

Lemma curr_pos_loop_body_le self tx_pos st :
  deletion_length_nonnegative (current_region st) ->
  curr_pos st <= curr_pos (loop_body self tx_pos st).
Proof.
  unfold deletion_length_nonnegative, current_region. cbn [fst snd]. intros HD.
  rewrite curr_pos_loop_body. unfold advance.
  destruct (Ascii.eqb (curr_region_type st) "M"); [cbn [curr_pos]; lia|].
  destruct (Ascii.eqb (curr_region_type st) "D") eqn:ED.
  { apply Ascii.eqb_eq in ED. specialize (HD ED). cbn [curr_pos]. lia. }
  destruct (Ascii.eqb (curr_region_type st) "I"); cbn [curr_pos]; lia.
Qed.

Lemma curr_pos_while_loop_le self tx_pos :
  Forall deletion_length_nonnegative (cigar self) ->
  forall fuel st st',
    deletion_length_nonnegative (current_region st) ->
    while_loop fuel self tx_pos st = Some st' ->
    curr_pos st <= curr_pos st'.
Proof.
  intros Hall. induction fuel as [|fuel IH]; intros st st' Hst Hw; simpl in Hw.
  - destruct (tx_ix st <? tx_pos); [discriminate|]. injection Hw as <-. lia.
  - destruct (tx_ix st <? tx_pos); [|injection Hw as <-; lia].
    pose proof (curr_pos_loop_body_le self tx_pos st Hst).
    assert (curr_pos (loop_body self tx_pos st) <= curr_pos st').
    { apply IH; [|assumption]. now apply invariant_loop_body. }
    lia.
Qed.

Lemma while_loop_monotone self p q :
  p <= q ->
  Forall deletion_length_nonnegative (cigar self) ->
  forall fp st_p r_p fq st_q r_q,
    forget_warnings st_p = forget_warnings st_q ->
    deletion_length_nonnegative (current_region st_p) ->
    while_loop fp self p st_p = Some r_p ->
    while_loop fq self q st_q = Some r_q ->
    curr_pos r_p <= curr_pos r_q.
Proof.
  intros Hpq Hall. induction fp as [|fp IH];
    intros st_p r_p fq st_q r_q Hsame Hst Hp Hq;
    destruct (forget_warnings_fields _ _ Hsame) as [Hc [Ht Hr]].
  - simpl in Hp. destruct (tx_ix st_p <? p) eqn:E; [discriminate|].
    injection Hp as <-. rewrite Hc.
    apply (curr_pos_while_loop_le self q Hall fq); [|assumption].
    now rewrite <- Hr.
  - destruct (Z.lt_ge_cases (tx_ix st_p) p) as [Hlt|Hge].
    + rewrite while_loop_step in Hp by assumption.
      destruct fq as [|fq].
      { simpl in Hq. destruct (tx_ix st_q <? q) eqn:E; [discriminate|].
        apply Z.ltb_ge in E. lia. }
      rewrite while_loop_step in Hq by lia.
      apply (IH _ _ _ _ _ (forget_warnings_loop_body self p q _ _ Hsame)
               (invariant_loop_body self _ Hall p st_p Hst) Hp Hq).
    + rewrite while_loop_exit in Hp by lia. injection Hp as <-. rewrite Hc.
      apply (curr_pos_while_loop_le self q Hall fq); [|assumption].
      now rewrite <- Hr.
Qed.

(** X11. For a region sequence in which no Insertion and no Deletion
    region has a negative length, and transcript positions
    [0 <= p <= q] in bounds, both calls return, and
    [start <= map_coordinate(p) <= map_coordinate(q)]: insertions
    included, the genomic coordinate never decreases along the
    transcript and never lies before the mapping start position. *)
Theorem map_coordinate_nondecreasing :
  forall self p q start,
    Forall insertion_length_nonnegative (cigar self) ->
    Forall deletion_length_nonnegative (cigar self) ->
    0 <= p <= q -> q < get_tx_length self ->
    exists g g' ws ws',
      map_coordinate_returns self p start g ws
      /\ map_coordinate_returns self q start g' ws'
      /\ start <= g <= g'.
Proof.
  intros self p q start Hins Hdel Hpq Hq.
  destruct (in_bounds_region_0 self q) as [region0 H0]; [lia|].
  pose proof (invariant_initial_state self _ Hins start region0 H0) as Hi.
  pose proof (invariant_initial_state self _ Hdel start region0 H0) as Hd.
  destruct (while_loop_terminates self p Hins (Z.to_nat p)
              (initial_state start region0) Hi) as [st_p Hp];
    [cbn [tx_ix initial_state]; lia|].
  destruct (while_loop_terminates self q Hins (Z.to_nat q)
              (initial_state start region0) Hi) as [st_q Hwq];
    [cbn [tx_ix initial_state]; lia|].
  exists (curr_pos st_p), (curr_pos st_q), (warned st_p), (warned st_q).
  split; [|split; [|split]].
  - apply (map_coordinate_returns_walks self p start region0);
      [lia|assumption|]. now exists (Z.to_nat p).
  - apply (map_coordinate_returns_walks self q start region0);
      [lia|assumption|]. now exists (Z.to_nat q).
  - apply (curr_pos_while_loop_le self p Hdel _ _ _ Hd Hp).
  - apply (while_loop_monotone self p q (proj2 Hpq) Hdel _ _ _ _ _ _
             eq_refl Hd Hp Hwq).
Qed.

Lemma map_coordinate_nondecreasing_witness :
  exists self,
    CIGARString_init "8M7D6M2I2M11D7M" = Ok self
    /\ exists g g' ws ws',
         map_coordinate_returns self 13 3 g ws
         /\ map_coordinate_returns self 15 3 g' ws'
         /\ 3 <= g <= g'.
Proof.
  exists {| cigar_str := "8M7D6M2I2M11D7M";
            cigar := [(8, Match); (7, Deletion); (6, Match); (2, Insertion);
                      (2, Match); (11, Deletion); (7, Match)] |}.
  split; [reflexivity|].
  apply (map_coordinate_nondecreasing _ 13 15 3).
  - repeat apply Forall_cons; try apply Forall_nil; intros _; cbn [fst]; lia.
  - repeat apply Forall_cons; try apply Forall_nil; intros _; cbn [fst]; lia.
  - lia.
  - vm_compute. reflexivity.
Defined.

(** ** Number of iterations *)

Lemma while_loop_out_of_fuel self tx_pos :
  Forall no_insertion (cigar self) ->
  forall fuel st,
    no_insertion (current_region st) ->
    tx_ix st + Z.of_nat fuel < tx_pos ->
    while_loop fuel self tx_pos st = None.
Proof.
  intros Hall. induction fuel as [|fuel IH]; intros st Hst Hlt.
  - simpl. destruct (tx_ix st <? tx_pos) eqn:E; [reflexivity|].
    apply Z.ltb_ge in E. lia.
  - rewrite while_loop_step by lia. apply IH.
    + now apply invariant_loop_body.
    + rewrite tx_ix_loop_body_no_insertion by assumption. lia.
Qed.

Lemma while_loop_enough_fuel self tx_pos :
  Forall no_insertion (cigar self) ->
  forall fuel st,
    no_insertion (current_region st) ->
    tx_pos <= tx_ix st + Z.of_nat fuel ->
    exists st', while_loop fuel self tx_pos st = Some st'.
Proof.
  intros Hall. induction fuel as [|fuel IH]; intros st Hst Hle.
  - exists st. apply while_loop_exit. lia.
  - destruct (Z.lt_ge_cases (tx_ix st) tx_pos) as [Hlt|Hge].
    + rewrite while_loop_step by assumption. apply IH.
      * now apply invariant_loop_body.
      * rewrite tx_ix_loop_body_no_insertion by assumption. lia.
    + exists st. now apply while_loop_exit.
Qed.

(** X12. For a region sequence without Insertion regions and an in-bounds
    transcript position, the loop body runs exactly [tx_pos] times,
    deletions or not: the call returns within [fuel] iterations exactly
    when [tx_pos <= fuel]. *)
Theorem map_coordinate_iterations :
  forall self tx_pos start fuel,
    Forall no_insertion (cigar self) ->
    0 <= tx_pos < get_tx_length self ->
    (map_coordinate fuel self tx_pos start = OutOfFuel <-> Z.of_nat fuel < tx_pos)
    /\ ((exists chrom_pos warnings,
            map_coordinate fuel self tx_pos start = Returns chrom_pos warnings)
        <-> tx_pos <= Z.of_nat fuel).
Proof.
  intros self tx_pos start fuel Hall Hin.
  destruct (in_bounds_region_0 self tx_pos Hin) as [region0 H0].
  pose proof (invariant_initial_state self _ Hall start region0 H0) as Hi.
  rewrite (map_coordinate_in_bounds _ _ _ _ region0) by assumption.
  destruct (Z.lt_ge_cases (Z.of_nat fuel) tx_pos) as [Hlt|Hge].
  - rewrite (while_loop_out_of_fuel self tx_pos Hall fuel _ Hi)
      by (cbn [tx_ix initial_state]; lia).
    split; split; intros H; try reflexivity; try assumption; try lia.
    destruct H as [v [ws H]]. discriminate.
  - destruct (while_loop_enough_fuel self tx_pos Hall fuel _ Hi) as [st Hst];
      [cbn [tx_ix initial_state]; lia|].
    rewrite Hst. split; split; intros H; try discriminate; try lia.
    now exists (curr_pos st), (warned st).
Qed.

Lemma map_coordinate_iterations_witness :
  (map_coordinate 8
     {| cigar_str := "8M7D6M"; cigar := [(8, Match); (7, Deletion); (6, Match)] |}
     9 3 = OutOfFuel <-> Z.of_nat 8 < 9)
  /\ ((exists chrom_pos warnings,
          map_coordinate 8
            {| cigar_str := "8M7D6M"; cigar := [(8, Match); (7, Deletion); (6, Match)] |}
            9 3 = Returns chrom_pos warnings)
      <-> 9 <= Z.of_nat 8).
Proof.
  apply (map_coordinate_iterations _ 9 3 8).
  - repeat apply Forall_cons; try apply Forall_nil; discriminate.
  - vm_compute. split; [discriminate|reflexivity].
Defined.

(** ** [int] reads what [str] writes *)

Lemma digits_cons_digit c acc b s :
  isdigit c = true ->
  digits acc b (c :: s) = digits (10 * acc + digit_value c) true s.
Proof. intros H. simpl. now rewrite H. Qed.

Ltac digit_step :=
  cbn [NilEmpty.string_of_uint list_ascii_of_string];
  rewrite digits_cons_digit by reflexivity;
  match goal with
  | |- context [digit_value ?c] =>
      let v := eval vm_compute in (digit_value c) in
      change (digit_value c) with v
  end.

Lemma digits_of_uint_acc d :
  forall acc,
    digits (Z.pos acc) true (list_ascii_of_string (NilEmpty.string_of_uint d))
    = Some (Z.pos (Pos.of_uint_acc d acc)).
Proof.
  induction d as [|d IH|d IH|d IH|d IH|d IH|d IH|d IH|d IH|d IH|d IH];
    intros acc; [reflexivity|..];
    digit_step; cbn [Pos.of_uint_acc]; rewrite <- IH; f_equal; lia.
Qed.

Lemma digits_of_uint d :
  forall b,
    b = true \/ d <> Decimal.Nil ->
    digits 0 b (list_ascii_of_string (NilEmpty.string_of_uint d))
    = Some (Z.of_N (Pos.of_uint d)).
Proof.
  induction d as [|d IH|d IH|d IH|d IH|d IH|d IH|d IH|d IH|d IH|d IH];
    intros b Hb.
  - destruct Hb as [->|Hb]; [reflexivity|contradiction].
  - digit_step. cbn [Pos.of_uint]. change (10 * 0 + 0) with 0. apply IH. now left.
  - digit_step. apply (digits_of_uint_acc d 1).
  - digit_step. apply (digits_of_uint_acc d 2).
  - digit_step. apply (digits_of_uint_acc d 3).
  - digit_step. apply (digits_of_uint_acc d 4).
  - digit_step. apply (digits_of_uint_acc d 5).
  - digit_step. apply (digits_of_uint_acc d 6).
  - digit_step. apply (digits_of_uint_acc d 7).
  - digit_step. apply (digits_of_uint_acc d 8).
  - digit_step. apply (digits_of_uint_acc d 9).
Qed.

Lemma literal_chars_of_uint d :
  Forall literal_char (list_ascii_of_string (NilEmpty.string_of_uint d)).
Proof.
  induction d; cbn [NilEmpty.string_of_uint list_ascii_of_string];
    constructor; try assumption; repeat split.
Qed.

Lemma string_of_uint_nonnil d :
  d <> Decimal.Nil -> NilZero.string_of_uint d = NilEmpty.string_of_uint d.
Proof. destruct d; [contradiction|reflexivity..]. Qed.

Lemma str_pos p : str (Z.pos p) = NilEmpty.string_of_uint (Pos.to_uint p).
Proof.
  unfold str. cbn [Z.to_int NilZero.string_of_int].
  apply string_of_uint_nonnil, Unsigned.to_uint_nonnil.
Qed.

Lemma str_neg p :
  str (Z.neg p) = String "-" (NilEmpty.string_of_uint (Pos.to_uint p)).
Proof.
  unfold str. cbn [Z.to_int NilZero.string_of_int].
  f_equal. apply string_of_uint_nonnil, Unsigned.to_uint_nonnil.
Qed.

Lemma literal_chars_of_str z : Forall literal_char (list_ascii_of_string (str z)).
Proof.
  destruct z as [|p|p].
  - repeat constructor.
  - rewrite str_pos. apply literal_chars_of_uint.
  - rewrite str_neg. cbn [list_ascii_of_string]. constructor.
    + repeat split.
    + apply literal_chars_of_uint.
Qed.

Lemma lstrip_literal l : Forall literal_char l -> lstrip l = l.
Proof.
  intros H. destruct H as [|c l [Hc _] _]; [reflexivity|].
  simpl. now rewrite Hc.
Qed.

Lemma strip_literal l : Forall literal_char l -> strip l = l.
Proof.
  intros H. unfold strip. rewrite (lstrip_literal l H).
  rewrite lstrip_literal by now apply Forall_rev. apply rev_involutive.
Qed.

Lemma signed_digits_of_uint d :
  d <> Decimal.Nil ->
  signed_digits (list_ascii_of_string (NilEmpty.string_of_uint d))
  = Some (Z.of_N (Pos.of_uint d)).
Proof.
  intros Hd. rewrite <- (digits_of_uint d false) by now right.
  destruct d; [contradiction|reflexivity..].
Qed.

Lemma int_str z : int (str z) = Ok z.
Proof.
  unfold int. rewrite strip_literal by apply literal_chars_of_str.
  destruct z as [|p|p].
  - reflexivity.
  - rewrite str_pos, signed_digits_of_uint by apply Unsigned.to_uint_nonnil.
    now rewrite Unsigned.of_to.
  - rewrite str_neg. cbn [list_ascii_of_string signed_digits].
    change (Ascii.eqb "-" "-") with true. cbv iota.
    rewrite digits_of_uint by (right; apply Unsigned.to_uint_nonnil).
    now rewrite Unsigned.of_to.
Qed.

(** ** Parsing a written region sequence *)

Lemma list_ascii_of_string_app s t :
  list_ascii_of_string (s ++ t)
  = (list_ascii_of_string s ++ list_ascii_of_string t)%list.
Proof. induction s as [|c s IH]; simpl; [reflexivity|now rewrite IH]. Qed.

Lemma re_split_literal in_class s op rest :
  Forall (fun c => in_class c = false) (list_ascii_of_string s) ->
  in_class op = true ->
  re_split in_class (s ++ String op rest) = s :: re_split in_class rest.
Proof.
  intros Hs Hop. induction s as [|c s IH]; simpl.
  - now rewrite Hop.
  - simpl in Hs. inversion Hs as [|? ? Hc Hs']; subst.
    rewrite Hc, (IH Hs'). reflexivity.
Qed.

Lemma filter_literal (f : ascii -> bool) l :
  Forall (fun c => f c = false) l -> filter f l = [].
Proof.
  induction 1 as [|c l Hc _ IH]; simpl; [reflexivity|]. now rewrite Hc.
Qed.

Lemma int_list_encode regions :
  Forall (fun r => operation_symbol (snd r) = true) regions ->
  int_list (encode regions)
  = (map (fun r => str (fst r)) regions ++ [EmptyString])%list.
Proof.
  unfold int_list. induction 1 as [|[len op] regions Hop _ IH]; [reflexivity|].
  cbn [encode map fst snd app] in *.
  rewrite re_split_literal; [now rewrite IH| |assumption].
  eapply Forall_impl; [|apply literal_chars_of_str]. now intros c [_ [H _]].
Qed.

Lemma chars_list_encode regions :
  chars_list (encode regions) = filter isalpha (map snd regions).
Proof.
  unfold chars_list. induction regions as [|[len op] regions IH]; [reflexivity|].
  cbn [encode map snd].
  rewrite list_ascii_of_string_app, filter_app, filter_literal.
  - cbn [list_ascii_of_string filter app]. now rewrite IH.
  - eapply Forall_impl; [|apply literal_chars_of_str]. now intros c [_ [_ H]].
Qed.

Lemma comprehension_int_str lens :
  comprehension int (map str lens) = Ok lens.
Proof.
  induction lens as [|len lens IH]; [reflexivity|].
  cbn [map comprehension]. now rewrite int_str, IH.
Qed.

Lemma parse_cigar_str_encode regions :
  Forall (fun r => operation_symbol (snd r) = true) regions ->
  parse_cigar_str (encode regions)
  = Ok (combine (map fst regions) (filter isalpha (map snd regions))).
Proof.
  intros H. rewrite parse_cigar_str_unfold, int_list_encode by assumption.
  rewrite removelast_last, chars_list_encode.
  rewrite <- (map_map fst str), comprehension_int_str. reflexivity.
Qed.

Lemma combine_fst_snd {A B} (l : list (A * B)) :
  combine (map fst l) (map snd l) = l.
Proof.
  induction l as [|[a b] l IH]; [reflexivity|]. simpl. now rewrite IH.
Qed.

Lemma filter_all (f : ascii -> bool) l :
  Forall (fun c => f c = true) l -> filter f l = l.
Proof.
  induction 1 as [|c l Hc _ IH]; simpl; [reflexivity|]. now rewrite Hc, IH.
Qed.

(** X13. Parser round trip. Writing a region sequence as a CIGAR string
    ([str] of each length followed by the operation symbol) and parsing it
    gives the sequence back, whenever every operation symbol is one of
    M, D, I, S, H and X; the lengths are any integers. *)
Theorem parse_cigar_str_round_trip :
  forall regions,
    Forall (fun r => letter_symbol (snd r) = true) regions ->
    parse_cigar_str (encode regions) = Ok regions.
Proof.
  intros regions H.
  rewrite parse_cigar_str_encode.
  - rewrite filter_all; [now rewrite combine_fst_snd|].
    apply Forall_map. eapply Forall_impl; [|exact H].
    intros r Hr. now apply andb_true_iff in Hr.
  - eapply Forall_impl; [|exact H].
    intros r Hr. now apply andb_true_iff in Hr.
Qed.

Lemma parse_cigar_str_round_trip_witness :
  encode [(8, Match); (7, Deletion); (6, Match); (2, Insertion)] = "8M7D6M2I"
  /\ parse_cigar_str (encode [(8, Match); (7, Deletion); (6, Match); (2, Insertion)])
     = Ok [(8, Match); (7, Deletion); (6, Match); (2, Insertion)].
Proof.
  split; [reflexivity|].
  apply parse_cigar_str_round_trip.
  repeat apply Forall_cons; try apply Forall_nil; reflexivity.
Defined.

(** X14. Regions written with the symbol [=]. For a region sequence
    whose operation symbols are all in [[MDISH=X]], parsing its CIGAR
    string keeps the lengths in order but drops every [=] from the
    symbols: the i-th length is paired with the i-th symbol other than
    [=], and the lengths left over at the end are dropped. *)
Theorem parse_cigar_str_drops_equal_symbols :
  forall regions,
    Forall (fun r => operation_symbol (snd r) = true) regions ->
    parse_cigar_str (encode regions)
    = Ok (combine (map fst regions)
            (filter (fun op => negb (Ascii.eqb op Equal)) (map snd regions))).
Proof.
  intros regions H. rewrite parse_cigar_str_encode by assumption.
  do 2 f_equal. apply filter_ext_in.
  intros op Hop. apply in_map_iff in Hop as [r [<- Hr]].
  pose proof (proj1 (Forall_forall _ _) H r Hr) as Hsym.
  unfold operation_symbol in Hsym. cbn [existsb] in Hsym.
  repeat (apply orb_true_iff in Hsym as [Hsym|Hsym];
          [apply Ascii.eqb_eq in Hsym; rewrite Hsym; reflexivity|]).
  discriminate.
Qed.

Lemma parse_cigar_str_drops_equal_symbols_witness :
  encode [(3, Equal); (7, Match); (2, Deletion)] = "3=7M2D"
  /\ parse_cigar_str (encode [(3, Equal); (7, Match); (2, Deletion)])
     = Ok [(3, Match); (7, Deletion)].
Proof.
  split; [reflexivity|].
  apply (parse_cigar_str_drops_equal_symbols
           [(3, Equal); (7, Match); (2, Deletion)]).
  repeat apply Forall_cons; try apply Forall_nil; reflexivity.
Defined.

(** X15. Whatever the string, the operation symbol of every parsed region
    is a letter; no parsed region has the symbol [=], although [=] is in
    the class the lengths are split on. *)
Theorem parse_cigar_str_symbols_are_letters :
  forall s regions r,
    parse_cigar_str s = Ok regions ->
    In r regions ->
    isalpha (snd r) = true /\ snd r <> Equal.
Proof.
  intros s regions [len op] Hparse Hr. cbn [snd].
  rewrite parse_cigar_str_unfold in Hparse.
  destruct (comprehension int (removelast (int_list s))) as [ints|]; [|discriminate].
  simpl in Hparse. injection Hparse as <-.
  apply in_combine_r in Hr. apply filter_In in Hr as [_ Hr].
  split; [assumption|]. intros ->. discriminate.
Qed.

Lemma parse_cigar_str_symbols_are_letters_witness :
  isalpha (snd (7, Deletion)) = true /\ snd (7, Deletion) <> Equal.
Proof.
  apply (parse_cigar_str_symbols_are_letters "8M7D6M2I"
           [(8, Match); (7, Deletion); (6, Match); (2, Insertion)]).
  - reflexivity.
  - right. left. reflexivity.
Defined.

(** ** Strings the parser rejects *)

Lemma re_split_app_symbol in_class s op t :
  in_class op = true ->
  re_split in_class (s ++ String op t)
  = (re_split in_class s ++ re_split in_class t)%list.
Proof.
  intros Hop. induction s as [|c s IH]; simpl.
  - now rewrite Hop.
  - rewrite IH. destruct (in_class c); [reflexivity|].
    destruct (re_split in_class s) as [|piece pieces] eqn:E; [|reflexivity].
    now apply re_split_not_nil in E.
Qed.

Lemma removelast_int_list_app s op t :
  operation_symbol op = true ->
  removelast (int_list (s ++ String op t))
  = (int_list s ++ removelast (int_list t))%list.
Proof.
  intros Hop. unfold int_list. rewrite re_split_app_symbol by assumption.
  apply removelast_app, re_split_not_nil.
Qed.

Lemma comprehension_rejects {A B} (f : A -> result B) l a e :
  In a l -> f a = Raise e -> exists e', comprehension f l = Raise e'.
Proof.
  induction l as [|x l IH]; intros Hin Ha; [contradiction|].
  simpl. destruct (f x) as [b|e0] eqn:Ex; [|now exists e0].
  destruct Hin as [->|Hin]; [congruence|].
  destruct (IH Hin Ha) as [e' ->]. now exists e'.
Qed.

(** A length field that [int] rejects makes the parse fail. *)
Lemma parse_cigar_str_rejects_field s op t piece e :
  operation_symbol op = true ->
  In piece (int_list s) ->
  int piece = Raise e ->
  exists literal,
    parse_cigar_str (s ++ String op t) = Raise (ValueError_invalid_literal literal).
Proof.
  intros Hop Hin He. rewrite parse_cigar_str_unfold.
  destruct (comprehension_rejects int
              (removelast (int_list (s ++ String op t))) piece e) as [e' He'].
  - rewrite removelast_int_list_app by assumption. apply in_or_app. now left.
  - assumption.
  - rewrite He'. simpl.
    apply comprehension_raise in He' as [literal [_ Hl]].
    apply int_raise in Hl. subst e'. now exists literal.
Qed.

Lemma int_list_ends_with_symbol s op :
  operation_symbol op = true ->
  In EmptyString (int_list (s ++ String op EmptyString)).
Proof.
  intros Hop. unfold int_list. rewrite re_split_app_symbol by assumption.
  apply in_or_app. right. now left.
Qed.

(** X16. An operation symbol with no length before it, being the first
    character of the string or following another operation symbol
    directly, makes the parse fail with the [ValueError] of [int]. *)
Theorem parse_cigar_str_rejects_empty_length :
  forall s op t,
    operation_symbol op = true ->
    (s = EmptyString
     \/ exists s' op',
          operation_symbol op' = true /\ s = s' ++ String op' EmptyString) ->
    exists literal,
      parse_cigar_str (s ++ String op t) = Raise (ValueError_invalid_literal literal).
Proof.
  intros s op t Hop Hs.
  apply (parse_cigar_str_rejects_field s op t EmptyString
           (ValueError_invalid_literal EmptyString)); try assumption.
  - destruct Hs as [->|[s' [op' [Hop' ->]]]].
    + now left.
    + now apply int_list_ends_with_symbol.
  - reflexivity.
Qed.

Lemma parse_cigar_str_rejects_empty_length_witness :
  exists literal,
    parse_cigar_str ("8M" ++ String Deletion "6M")
    = Raise (ValueError_invalid_literal literal).
Proof.
  apply parse_cigar_str_rejects_empty_length.
  - reflexivity.
  - right. exists "8", Match. split; reflexivity.
Defined.

Lemma letter_not_space c : isalpha c = true -> isspace c = false.
Proof.
  unfold isalpha, isspace. intros H.
  apply orb_true_iff in H.
  apply orb_false_iff. split; apply andb_false_iff;
    destruct H as [H|H]; apply andb_true_iff in H as [H1 H2];
    apply N.leb_le in H1, H2;
    ((left; apply N.leb_gt; lia) || (right; apply N.leb_gt; lia)).
Qed.

Lemma letter_not_digit c : isalpha c = true -> isdigit c = false.
Proof.
  unfold isalpha, isdigit. intros H.
  apply orb_true_iff in H. apply andb_false_iff.
  destruct H as [H|H]; apply andb_true_iff in H as [H1 H2];
    apply N.leb_le in H1, H2; right; apply N.leb_gt; lia.
Qed.

Lemma letter_not_char c (x : ascii) :
  isalpha c = true -> isalpha x = false -> Ascii.eqb c x = false.
Proof.
  intros Hc Hx. apply Ascii.eqb_neq. intros ->. congruence.
Qed.

Lemma In_lstrip c l : In c l -> isspace c = false -> In c (lstrip l).
Proof.
  intros Hin Hc. induction l as [|x l IH]; [contradiction|].
  simpl. destruct (isspace x) eqn:Ex; [|assumption].
  destruct Hin as [->|Hin]; [congruence|]. now apply IH.
Qed.

Lemma In_strip c l : In c l -> isspace c = false -> In c (strip l).
Proof.
  intros Hin Hc. unfold strip.
  apply -> in_rev. apply In_lstrip; [|assumption].
  apply -> in_rev. now apply In_lstrip.
Qed.

Lemma digits_rejects_letter c l :
  In c l -> isalpha c = true -> forall acc b, digits acc b l = None.
Proof.
  intros Hin Hc. induction l as [|x l IH]; intros acc b; [contradiction|].
  simpl. destruct Hin as [->|Hin].
  - rewrite (letter_not_digit c Hc), (letter_not_char c "_" Hc eq_refl).
    reflexivity.
  - destruct (isdigit x); [now apply IH|].
    destruct (Ascii.eqb x "_"); [|reflexivity].
    destruct b; [now apply IH|reflexivity].
Qed.

Lemma int_rejects_letter c piece :
  In c (list_ascii_of_string piece) -> isalpha c = true ->
  int piece = Raise (ValueError_invalid_literal piece).
Proof.
  intros Hin Hc. unfold int.
  pose proof (In_strip c _ Hin (letter_not_space c Hc)) as Hs.
  destruct (strip (list_ascii_of_string piece)) as [|x l]; [reflexivity|].
  unfold signed_digits.
  destruct (Ascii.eqb x "-") eqn:Eminus.
  - apply Ascii.eqb_eq in Eminus. subst x.
    destruct Hs as [<-|Hs]; [discriminate|].
    now rewrite (digits_rejects_letter c l Hs Hc).
  - destruct (Ascii.eqb x "+") eqn:Eplus.
    + apply Ascii.eqb_eq in Eplus. subst x.
      destruct Hs as [<-|Hs]; [discriminate|].
      now rewrite (digits_rejects_letter c l Hs Hc).
    + now rewrite (digits_rejects_letter c (x :: l) Hs Hc).
Qed.

Lemma re_split_keeps_char in_class c s :
  In c (list_ascii_of_string s) -> in_class c = false ->
  exists piece,
    In piece (re_split in_class s) /\ In c (list_ascii_of_string piece).
Proof.
  intros Hin Hc. induction s as [|x s IH]; [contradiction|].
  simpl in Hin. simpl. destruct Hin as [->|Hin].
  - rewrite Hc. destruct (re_split in_class s) as [|piece pieces];
      eexists; (split; [left; reflexivity|left; reflexivity]).
  - destruct (IH Hin) as [piece [Hp Hcp]].
    destruct (in_class x).
    + exists piece. split; [now right|assumption].
    + destruct (re_split in_class s) as [|piece0 pieces]; [contradiction|].
      destruct Hp as [->|Hp].
      * exists (String x piece). split; [now left|now right].
      * exists piece. split; [now right|assumption].
Qed.

(** X17. A letter that is not in [[MDISH=X]] (N or P, say) anywhere
    before an operation symbol makes the parse fail with the
    [ValueError] of [int]. *)
Theorem parse_cigar_str_rejects_other_letters :
  forall s c op t,
    In c (list_ascii_of_string s) ->
    isalpha c = true -> operation_symbol c = false ->
    operation_symbol op = true ->
    exists literal,
      parse_cigar_str (s ++ String op t) = Raise (ValueError_invalid_literal literal).
Proof.
  intros s c op t Hin Hc Hnot Hop.
  destruct (re_split_keeps_char operation_symbol c s Hin Hnot)
    as [piece [Hp Hcp]].
  apply (parse_cigar_str_rejects_field s op t piece
           (ValueError_invalid_literal piece)); try assumption.
  now apply (int_rejects_letter c).
Qed.

Lemma parse_cigar_str_rejects_other_letters_witness :
  exists literal,
    parse_cigar_str ("8M100N8" ++ String Match "")
    = Raise (ValueError_invalid_literal literal).
Proof.
  apply (parse_cigar_str_rejects_other_letters "8M100N8" "N" Match "").
  - simpl. tauto.
  - reflexivity.
  - reflexivity.
  - reflexivity.
Defined.

(** ** Exceptions of [map_coordinate] *)

(** X18. The only exception [map_coordinate] raises is the out-of-bounds
    [ValueError], and only for a position out of bounds: whatever the
    region list, the empty one included, reading region 0 or a later
    region raises no [IndexError]. *)
Theorem map_coordinate_only_exception :
  forall fuel self tx_pos start e,
    map_coordinate fuel self tx_pos start = Raises e ->
    (tx_pos < 0 \/ tx_pos >= get_tx_length self)
    /\ e = ValueError (out_of_bounds_message self tx_pos).
Proof.
  intros fuel self tx_pos start e H.
  destruct (Z.lt_ge_cases tx_pos 0) as [Hneg|Hpos];
    [|destruct (Z.lt_ge_cases tx_pos (get_tx_length self)) as [Hlt|Hge]].
  - unfold map_coordinate in H.
    rewrite bounds_check_fails in H by lia. injection H as <-.
    split; [lia|reflexivity].
  - destruct (in_bounds_region_0 self tx_pos) as [region0 H0]; [lia|].
    rewrite (map_coordinate_in_bounds _ _ _ _ region0) in H by (assumption || lia).
    destruct (while_loop _ _ _ _); discriminate.
  - unfold map_coordinate in H.
    rewrite bounds_check_fails in H by lia. injection H as <-.
    split; [lia|reflexivity].
Qed.

Lemma map_coordinate_only_exception_witness :
  (0 < 0 \/ 0 >= get_tx_length {| cigar_str := ""; cigar := [] |})
  /\ ValueError (out_of_bounds_message {| cigar_str := ""; cigar := [] |} 0)
     = ValueError (out_of_bounds_message {| cigar_str := ""; cigar := [] |} 0).
Proof.
  apply (map_coordinate_only_exception 0 {| cigar_str := ""; cigar := [] |} 0 0).
  reflexivity.
Defined.

(** ** Match regions in a row *)

Lemma loop_body_last_match self tx_pos st :
  curr_region_type st = Match ->
  nth_error (cigar self) (S (region_ix st)) = None ->
  curr_region_type (loop_body self tx_pos st) = Match
  /\ nth_error (cigar self) (S (region_ix (loop_body self tx_pos st))) = None.
Proof.
  intros HT Hlast.
  assert (Hnext : nth_error (cigar self) (S (S (region_ix st))) = None).
  { apply nth_error_None. apply nth_error_None in Hlast. lia. }
  destruct st as [cp len type ix within t flag ws].
  cbn [curr_region_type region_ix] in *. subst type.
  unfold loop_body, tick, next_region, advance, Match. project.
  cbn [Ascii.eqb Bool.eqb]. cbv iota. project.
  rewrite Hlast. split_cases; project; split; (reflexivity || assumption).
Qed.

Lemma walks_in_last_match self tx_pos :
  forall k st,
    curr_region_type st = Match ->
    nth_error (cigar self) (S (region_ix st)) = None ->
    tx_ix st + Z.of_nat k = tx_pos ->
    exists st',
      walks self tx_pos st st'
      /\ curr_pos st' = curr_pos st + Z.of_nat k
      /\ warned st' = warned st.
Proof.
  induction k as [|k IH]; intros st HT Hlast Hk.
  - exists st. split; [apply walks_exit; lia|]. split; [lia|reflexivity].
  - destruct (loop_body_match self tx_pos st HT) as [Hc [Ht Hws]].
    destruct (loop_body_last_match self tx_pos st HT Hlast) as [HT' Hlast'].
    destruct (IH (loop_body self tx_pos st) HT' Hlast') as [st' [Hw [Hc' Hws']]];
      [lia|].
    exists st'. split; [|split].
    + apply walks_step; [lia|assumption].
    + lia.
    + congruence.
Qed.

Lemma walks_all_match self tx_pos :
  Forall (fun r => snd r = Match) (cigar self) ->
  forall k st,
    curr_region_type st = Match ->
    tx_ix st + Z.of_nat k = tx_pos ->
    exists st',
      walks self tx_pos st st'
      /\ curr_pos st' = curr_pos st + Z.of_nat k
      /\ warned st' = warned st.
Proof.
  intros Hall. induction k as [|k IH]; intros st HT Hk.
  - exists st. split; [apply walks_exit; lia|]. split; [lia|reflexivity].
  - destruct (loop_body_match self tx_pos st HT) as [Hc [Ht Hws]].
    destruct (IH (loop_body self tx_pos st)) as [st' [Hw [Hc' Hws']]].
    + apply (invariant_loop_body self (fun r => snd r = Match) Hall tx_pos st).
      exact HT.
    + lia.
    + exists st'. split; [|split].
      * apply walks_step; [lia|assumption].
      * lia.
      * congruence.
Qed.

(** X19. For a region sequence made of Match regions only, however many
    and of whatever lengths, every in-bounds transcript position [p] maps
    to [start + p], without a warning. *)
Theorem map_coordinate_all_match :
  forall self p start,
    Forall (fun r => snd r = Match) (cigar self) ->
    0 <= p < get_tx_length self ->
    map_coordinate_returns self p start (start + p) [].
Proof.
  intros self p start Hall Hin.
  destruct (in_bounds_region_0 self p Hin) as [region0 H0].
  destruct (walks_all_match self p Hall (Z.to_nat p) (initial_state start region0))
    as [st [Hw [Hpos Hws]]].
  - apply (invariant_initial_state self (fun r => snd r = Match) Hall start region0 H0).
  - cbn [tx_ix initial_state]. lia.
  - cbn [curr_pos warned initial_state] in Hpos, Hws.
    replace (start + p) with (curr_pos st) by lia. rewrite <- Hws.
    eapply map_coordinate_returns_walks; eassumption.
Qed.

Lemma map_coordinate_all_match_witness :
  map_coordinate_returns
    {| cigar_str := "2M1M3M"; cigar := [(2, Match); (1, Match); (3, Match)] |}
    5 10 (10 + 5) [].
Proof.
  apply map_coordinate_all_match.
  - repeat apply Forall_cons; try apply Forall_nil; reflexivity.
  - vm_compute. split; [discriminate|reflexivity].
Defined.

(** X20. Two Match regions in a row before a deletion. For the regions
    [(a, M); (b, M); (d, D); (c, M)] with [a >= 2], [b >= 2] and a
    transcript position [0 <= p < a + b + c], the call returns without a
    warning [start + p] when [p <= a + b - 2] and [start + p + d] when
    [a + b - 1 <= p]: the second Match region is left after [b - 1]
    iterations, so the deletion already moves the last position of the
    two Match regions, [p = a + b - 1]. *)
Theorem map_coordinate_match_match_deletion_match :
  forall self a b d c p start,
    cigar self = [(a, Match); (b, Match); (d, Deletion); (c, Match)] ->
    2 <= a -> 2 <= b ->
    0 <= p < a + b + c ->
    (p <= a + b - 2 -> map_coordinate_returns self p start (start + p) [])
    /\ (a + b - 1 <= p -> map_coordinate_returns self p start (start + p + d) []).
Proof.
  intros self a b d c p start Hc Ha Hb Hp.
  assert (Hin : 0 <= p < get_tx_length self) by (tx_length_of Hc; lia).
  assert (H0 : nth_error (cigar self) 0 = Some (a, Match)) by now rewrite Hc.
  set (st1 := enter_region (initial_state start (a, Match)) (b, Match) (a - 1) (a - 1)).
  assert (Hst1 : forall st', a - 1 <= p ->
             walks self p st1 st' ->
             walks self p (initial_state start (a, Match)) st').
  { intros st' Hle Hw.
    apply (walks_across_first_match self a (b, Match)
             [(d, Deletion); (c, Match)]); assumption. }
  split; intros Hcase.
  - destruct (Z.le_gt_cases p (a - 1)) as [Hfirst|Hsecond].
    + destruct (walks_in_match self p (Z.to_nat p) (initial_state start (a, Match)))
        as [st [Hw [Hpos Hws]]]; try reflexivity.
      * cbn [tx_ix initial_state]. lia.
      * intros j Hj. cbn [within_region_ix curr_region_length initial_state fst]. lia.
      * cbn [curr_pos warned initial_state] in Hpos, Hws.
        replace (start + p) with (curr_pos st) by lia. rewrite <- Hws.
        eapply map_coordinate_returns_walks; eassumption.
    + destruct (walks_in_match self p (Z.to_nat (p - (a - 1))) st1)
        as [st [Hw [Hpos Hws]]]; try reflexivity.
      * unfold st1. cbn [tx_ix enter_region initial_state]. lia.
      * intros j Hj. unfold st1.
        cbn [within_region_ix curr_region_length enter_region fst]. lia.
      * unfold st1 in Hpos, Hws.
        cbn [curr_pos warned enter_region initial_state] in Hpos, Hws.
        replace (start + p) with (curr_pos st) by lia. rewrite <- Hws.
        eapply map_coordinate_returns_walks; try eassumption.
        apply Hst1; [lia|assumption].
  - set (st2 := enter_region st1 (d, Deletion) (b - 1) (b - 1)).
    set (st3 := enter_region st2 (c, Match) (d + 1) 1).
    destruct (walks_in_last_match self p (Z.to_nat (p - (a + b - 1))) st3)
      as [st [Hw [Hpos Hws]]].
    + reflexivity.
    + unfold st3, st2, st1. cbn [region_ix enter_region initial_state].
      now rewrite Hc.
    + unfold st3, st2, st1. cbn [tx_ix enter_region initial_state]. lia.
    + unfold st3, st2, st1 in Hpos, Hws.
      cbn [curr_pos warned enter_region initial_state] in Hpos, Hws.
      replace (start + p + d) with (curr_pos st) by lia. rewrite <- Hws.
      eapply map_coordinate_returns_walks; try eassumption.
      apply Hst1; [lia|].
      assert (Hk : Z.of_nat (S (Z.to_nat (b - 2))) = b - 1) by lia.
      apply (walks_across_match self p (d, Deletion) (Z.to_nat (b - 2)));
        try reflexivity.
      * rewrite Hk. unfold st1.
        cbn [within_region_ix curr_region_length enter_region fst]. lia.
      * rewrite Hk. unfold st1. cbn [tx_ix enter_region initial_state]. lia.
      * unfold st1. cbn [region_ix enter_region initial_state]. now rewrite Hc.
      * rewrite Hk. fold st2.
        apply walks_step; [unfold st2, st1; cbn [tx_ix enter_region initial_state]; lia|].
        rewrite (loop_body_deletion self p st2 (c, Match)).
        -- exact Hw.
        -- reflexivity.
        -- unfold st2, st1. cbn [region_ix enter_region initial_state].
           now rewrite Hc.
Qed.

Lemma map_coordinate_match_match_deletion_match_witness :
  map_coordinate_returns
    {| cigar_str := "2M2M5D2M";
       cigar := [(2, Match); (2, Match); (5, Deletion); (2, Match)] |}
    3 10 (10 + 3 + 5) [].
Proof.
  apply (map_coordinate_match_match_deletion_match _ 2 2 5 2 3 10).
  - reflexivity.
  - lia.
  - lia.
  - lia.
  - lia.
Defined.
